(** * A shallow embedding of the signals engine (src/index.ts)

    The engine is a graph of [EffectNode] objects (Signal, Computed, Effect)
    together with three process-wide pieces of state: the scheduler
    ([schedule.queue], [schedule.queueIndex]), the evaluation stack
    ([EffectNode.effectStack]) and the batch state ([Signal.batchMode],
    [Signal.batchQueue]).

    Modelling choices.
    - Objects live in an arena [heap : list node]; a reference is the index
      of the object.  The field [id] ([utils.createId()]) is identified with
      that index: ids are taken to be collision free.
    - A JS object used as [Record<string, EffectNode>] always maps a node's id
      to that node, so it is a list of ids in insertion order (ids are long
      random digit strings, never canonical array indices, hence
      [Object.values] enumerates in insertion order).
    - [priority] is a JS number holding an integer; it is a [Z].  Additions
      of priorities are exact in the code while the result is at most
      [Number.MAX_SAFE_INTEGER]; a theorem that concludes the value of a
      priority carries that bound.
    - Signals and Computeds hold numbers ([T := number], a [Z]); the cached
      value of a Computed is [undefined] until its first evaluation
      ([option Z]).
    - The closures stored in nodes ([computeFn], [effectFn], [destroy]) and
      the callers of the public API are programs of type [prog]: finite trees
      of API calls whose continuation may depend on the values read.  A
      closure returns a number ([Ret]) or a function ([RetFn]); an effect
      body that returns a number returns no cleanup.
    - A call either returns, or throws (only [Throw] in user code throws; the
      state at the throw is kept, as a caller that catches sees it), or runs
      out of fuel, or is ill typed ([Wrong]: an index that is no object, a
      method of another class, a derivation that returns a function).
    - Evaluation is mutually recursive through the stored closures and need
      not terminate; [exec] and [autoRun] take fuel.
    - [trace] is ghost state: it records which closure was invoked and which
      node the scheduler ran.  No engine code reads it. *)

From Stdlib Require Import ZArith List Lia Bool Sorting.Sorted.
From stdpp Require Import base list.

Local Open Scope Z_scope.

(** Object references (and the [id] field) are arena indices. *)
Abbreviation node_id := nat (only parsing).

(** ** Programs: user code calling the public API *)

Inductive prog : Type :=
| Ret (v : Z)                                      (* return v *)
| RetFn (c : prog)                                 (* return () => { c } *)
| Throw                                            (* throw *)
| SignalGet (s : node_id) (k : Z -> prog)          (* s.value *)
| SignalPeek (s : node_id) (k : Z -> prog)         (* s.peek() *)
| SignalSet (s : node_id) (v : Z) (k : prog)       (* s.value = v *)
| ComputedGet (c : node_id) (k : Z -> prog)        (* c.value *)
| ComputedPeek (c : node_id) (k : option Z -> prog) (* c.peek() *)
| EffectRun (e : node_id) (k : prog)               (* e.run() *)
| EffectStop (e : node_id) (k : prog)              (* e.stop() *)
| Batch (update : prog) (k : prog)                 (* Signal.batch(update) *)
| NewSignal (init : Z) (k : node_id -> prog)       (* createSignal(init) *)
| NewComputed (fn : prog) (k : node_id -> prog)    (* createComputed(fn) *)
| NewEffect (fn : prog) (manual : bool) (k : node_id -> prog)
                                                   (* createEffect(fn, manual) *)
| Try (body : prog) (k : bool -> prog).            (* try { body } catch {} *)

(** What a closure returns: a number, or a function (an [Unsubscribe]). *)
Inductive retval : Type :=
| RNum (v : Z)
| RFun (c : prog).

(** ** Nodes *)

Inductive node_kind : Type :=
| KSignal (value : Z)
| KComputed (value : option Z) (computeFn : prog)
| KEffect (effectFn : prog) (destroy : option prog) (running manual : bool).

Record node : Type := mkNode {
  priority : Z;
  dirty : bool;
  prev : list node_id;
  next : list node_id;
  kind : node_kind
}.

Definition set_priority (p : Z) (n : node) : node :=
  mkNode p (dirty n) (prev n) (next n) (kind n).
Definition set_dirty (d : bool) (n : node) : node :=
  mkNode (priority n) d (prev n) (next n) (kind n).
Definition set_prev (p : list node_id) (n : node) : node :=
  mkNode (priority n) (dirty n) p (next n) (kind n).
Definition set_next (x : list node_id) (n : node) : node :=
  mkNode (priority n) (dirty n) (prev n) x (kind n).
Definition set_kind (k : node_kind) (n : node) : node :=
  mkNode (priority n) (dirty n) (prev n) (next n) k.

(** [this._value = v] on a Signal or a Computed. *)
Definition set_value (v : Z) (n : node) : node :=
  match kind n with
  | KSignal _ => set_kind (KSignal v) n
  | KComputed _ fn => set_kind (KComputed (Some v) fn) n
  | KEffect _ _ _ _ => n
  end.

(** [this.destroy = d] on an Effect. *)
Definition set_destroy (d : option prog) (n : node) : node :=
  match kind n with
  | KEffect fn _ r m => set_kind (KEffect fn d r m) n
  | _ => n
  end.

(** [this.running = r] on an Effect. *)
Definition set_running (r : bool) (n : node) : node :=
  match kind n with
  | KEffect fn d _ m => set_kind (KEffect fn d r m) n
  | _ => n
  end.

(** ** Ghost events *)

Inductive event : Type :=
| EvRun (n : node_id)        (* the scheduler called n.run() *)
| EvCompute (c : node_id)    (* c.computeFn() was invoked *)
| EvEffect (e : node_id)     (* e.effectFn() was invoked *)
| EvCleanup (e : node_id).   (* e.destroy() was invoked *)

Definition event_eqb (a b : event) : bool :=
  match a, b with
  | EvRun x, EvRun y | EvCompute x, EvCompute y
  | EvEffect x, EvEffect y | EvCleanup x, EvCleanup y => Nat.eqb x y
  | _, _ => false
  end.

Definition count_event (e : event) (t : list event) : nat :=
  length (List.filter (event_eqb e) t).

(** ** Global state *)

Record state : Type := mkState {
  heap : list node;
  queue : list node_id;          (* schedule.queue *)
  queueIndex : list node_id;     (* keys of schedule.queueIndex *)
  effectStack : list node_id;    (* EffectNode.effectStack, top is last *)
  batchMode : bool;              (* Signal.batchMode *)
  batchQueue : list node_id;     (* keys of Signal.batchQueue *)
  trace : list event             (* ghost *)
}.

Definition init : state := mkState [] [] [] [] false [] [].

Definition set_heap (h : list node) (s : state) : state :=
  mkState h (queue s) (queueIndex s) (effectStack s) (batchMode s)
          (batchQueue s) (trace s).
Definition set_queue (q : list node_id) (s : state) : state :=
  mkState (heap s) q (queueIndex s) (effectStack s) (batchMode s)
          (batchQueue s) (trace s).
Definition set_queueIndex (q : list node_id) (s : state) : state :=
  mkState (heap s) (queue s) q (effectStack s) (batchMode s)
          (batchQueue s) (trace s).
Definition set_effectStack (st : list node_id) (s : state) : state :=
  mkState (heap s) (queue s) (queueIndex s) st (batchMode s)
          (batchQueue s) (trace s).
Definition set_batchMode (b : bool) (s : state) : state :=
  mkState (heap s) (queue s) (queueIndex s) (effectStack s) b
          (batchQueue s) (trace s).
Definition set_batchQueue (q : list node_id) (s : state) : state :=
  mkState (heap s) (queue s) (queueIndex s) (effectStack s) (batchMode s)
          q (trace s).
Definition log (e : event) (s : state) : state :=
  mkState (heap s) (queue s) (queueIndex s) (effectStack s) (batchMode s)
          (batchQueue s) (trace s ++ [e]).

(** Field update on the object [this]. *)
Definition upd (this : node_id) (f : node -> node) (s : state) : state :=
  set_heap (alter f this (heap s)) s.

(** [new C(...)]: the fresh object gets the next free index. *)
Definition alloc (n : node) (s : state) : node_id * state :=
  (length (heap s), set_heap (heap s ++ [n]) s).

(** ** JS objects as ordered key sets *)

Definition has_key (k : node_id) (m : list node_id) : bool :=
  existsb (Nat.eqb k) m.

(** [m[k] = node_k]: an existing key keeps its place, a new one is appended. *)
Definition put_key (k : node_id) (m : list node_id) : list node_id :=
  if has_key k m then m else m ++ [k].

(** [delete m[k]] *)
Fixpoint del_key (k : node_id) (m : list node_id) : list node_id :=
  match m with
  | [] => []
  | x :: m' => if Nat.eqb x k then del_key k m' else x :: del_key k m'
  end.

(** ** Schedule *)

Definition prio (h : list node) (n : node_id) : Z :=
  match h !! n with
  | Some nd => priority nd
  | None => 0
  end.

(** The comparator of [autoRun]: [(a, b) => -(a.priority - b.priority)]. *)
Definition cmp (h : list node) (a b : node_id) : Z :=
  - (prio h a - prio h b).

(** [Array.prototype.sort] is stable: of two elements that compare equal the
    one that came first stays first. *)
Fixpoint insert_sorted (h : list node) (x : node_id) (l : list node_id)
  : list node_id :=
  match l with
  | [] => [x]
  | y :: l' => if cmp h x y <=? 0 then x :: y :: l'
               else y :: insert_sorted h x l'
  end.

Definition sort (h : list node) (l : list node_id) : list node_id :=
  fold_right (insert_sorted h) [] l.

(** Schedule.addEffectTask *)
Definition addEffectTask (n : node_id) (s : state) : state :=
  if has_key n (queueIndex s) then s
  else set_queue (queue s ++ [n]) (set_queueIndex (queueIndex s ++ [n]) s).

(** The first half of Schedule.autoRun: sort, pop, delete from the index.
    [None] when the queue is empty. *)
Definition dequeue (s : state) : option (node_id * state) :=
  let q := sort (heap s) (queue s) in
  match last q with
  | None => None
  | Some n =>
      let s1 := set_queue (removelast q) s in
      Some (n, set_queueIndex (del_key n (queueIndex s1)) s1)
  end.

(** ** EffectNode *)

Definition addCurrentEffect (this : node_id) (s : state) : state :=
  set_effectStack (effectStack s ++ [this]) s.

Definition popCurrentEffect (this : node_id) (s : state) : state :=
  match last (effectStack s) with
  | Some top => if Nat.eqb top this
                then set_effectStack (removelast (effectStack s)) s
                else s
  | None => s
  end.

Definition collect (this : node_id) (s : state) : state :=
  match last (effectStack s), heap s !! this with
  | Some cur, Some n =>
      if has_key cur (next n) then s
      else
        let s1 := upd this (fun x => set_next (put_key cur (next x)) x) s in
        let s2 := upd cur (fun c => set_prev (put_key this (prev c)) c) s1 in
        upd cur (fun c => set_priority (priority c + prio (heap s2) this) c) s2
  | _, _ => s
  end.

Definition release (this : node_id) (s : state) : state :=
  match heap s !! this with
  | Some n =>
      let s1 := fold_left
                  (fun st p => upd p (fun x => set_next (del_key this (next x)) x) st)
                  (prev n) s in
      let s2 := upd this (set_priority 1) s1 in
      upd this (set_prev []) s2
  | None => s
  end.

Definition updatePriority (this : node_id) (s : state) : state :=
  match heap s !! this with
  | Some n =>
      upd this
          (set_priority (fold_left Z.add (map (prio (heap s)) (prev n)) 0)) s
  | None => s
  end.

Definition dirtyDownstream (this : node_id) (s : state) : state :=
  match heap s !! this with
  | Some n =>
      fold_left (fun st x => addEffectTask x (upd x (set_dirty true) st))
                (next n) s
  | None => s
  end.

(** EffectNode.run *)
Definition base_run (this : node_id) (s : state) : state :=
  upd this (set_dirty false) s.

(** ** Outcomes *)

Inductive outcome (A : Type) : Type :=
| Normal (s : state) (a : A)   (* returned a, in state s *)
| Thrown (s : state)           (* an exception propagates; s is the state at the throw *)
| Diverge                      (* out of fuel *)
| Wrong.                       (* ill-typed call: dangling index or wrong class *)
Arguments Normal {A} s a.
Arguments Thrown {A} s.
Arguments Diverge {A}.
Arguments Wrong {A}.

Definition bind {A B : Type} (m : outcome A) (k : state -> A -> outcome B)
  : outcome B :=
  match m with
  | Normal s a => k s a
  | Thrown s => Thrown s
  | Diverge => Diverge
  | Wrong => Wrong
  end.

Notation "'do' ( s , a ) <- m ; k" := (bind m (fun s a => k))
  (at level 10, s name, a name, m at level 100, k at level 200).

(** ** The methods, with the recursive calls abstracted *)

Section Methods.
(** [exec'] runs a closure, [autoRun'] is [schedule.autoRun()]. *)
Variable exec' : prog -> state -> outcome retval.
Variable autoRun' : state -> outcome unit.

(** Signal.value (getter) *)
Definition signal_get (this : node_id) (s : state) : outcome Z :=
  let s1 := collect this s in
  match heap s1 !! this with
  | Some (mkNode _ _ _ _ (KSignal v)) => Normal s1 v
  | _ => Wrong
  end.

(** Signal.peek *)
Definition signal_peek (this : node_id) (s : state) : outcome Z :=
  match heap s !! this with
  | Some (mkNode _ _ _ _ (KSignal v)) => Normal s v
  | _ => Wrong
  end.

(** Signal.value (setter) *)
Definition signal_set (this : node_id) (v : Z) (s : state) : outcome unit :=
  match heap s !! this with
  | Some (mkNode _ _ _ _ (KSignal _)) =>
      let s1 := upd this (set_value v) s in
      if batchMode s1
      then Normal (set_batchQueue (put_key this (batchQueue s1)) s1) tt
      else autoRun' (dirtyDownstream this s1)
  | _ => Wrong
  end.

(** Signal.batch *)
Definition batch (update : prog) (s : state) : outcome unit :=
  let s1 := set_batchMode true s in
  do (s2, _) <- exec' update s1;
  let s3 := set_batchMode false s2 in
  let s4 := fold_left (fun st n => dirtyDownstream n st) (batchQueue s3) s3 in
  autoRun' s4.

(** Computed._ensureComputed *)
Definition ensureComputed (this : node_id) (s : state) : outcome unit :=
  match heap s !! this with
  | Some (mkNode _ d _ _ (KComputed _ fn)) =>
      if d then
        let s1 := release this s in
        let s2 := addCurrentEffect this s1 in
        do (s3, r) <- exec' fn (log (EvCompute this) s2);
        match r with
        | RNum v =>
            let s4 := upd this (set_value v) s3 in
            let s5 := popCurrentEffect this s4 in
            Normal (updatePriority this s5) tt
        | RFun _ => Wrong
        end
      else Normal s tt
  | _ => Wrong
  end.

(** Computed.value (getter) *)
Definition computed_get (this : node_id) (s : state) : outcome Z :=
  let s1 := collect this s in
  do (s2, _) <- ensureComputed this s1;
  match heap s2 !! this with
  | Some (mkNode _ _ _ _ (KComputed (Some v) _)) => Normal s2 v
  | _ => Wrong
  end.

(** Computed.peek *)
Definition computed_peek (this : node_id) (s : state) : outcome (option Z) :=
  match heap s !! this with
  | Some (mkNode _ _ _ _ (KComputed v _)) => Normal s v
  | _ => Wrong
  end.

(** Computed.run *)
Definition computed_run (this : node_id) (s : state) : outcome unit :=
  do (s1, _) <- ensureComputed this s;
  let s2 := base_run this s1 in
  let s3 := dirtyDownstream this s2 in
  autoRun' s3.

(** Effect.run *)
Definition effect_run (this : node_id) (s : state) : outcome unit :=
  match heap s !! this with
  | Some (mkNode _ _ _ _ (KEffect fn _ _ _)) =>
      let s0 := upd this (set_running true) s in
      let s1 := addCurrentEffect this s0 in
      let s2 := release this s1 in
      do (s3, r) <- exec' fn (log (EvEffect this) s2);
      let s4 := upd this
                    (set_destroy match r with RFun c => Some c | RNum _ => None end)
                    s3 in
      let s5 := popCurrentEffect this s4 in
      let s6 := updatePriority this s5 in
      Normal (base_run this s6) tt
  | _ => Wrong
  end.

(** Effect.stop *)
Definition effect_stop (this : node_id) (s : state) : outcome unit :=
  match heap s !! this with
  | Some (mkNode _ _ _ _ (KEffect _ d r _)) =>
      if r then
        do (s1, _) <- match d with
                      | Some c =>
                          do (s', _) <- exec' c (log (EvCleanup this) s);
                          Normal s' tt
                      | None => Normal s tt
                      end;
        let s2 := release this s1 in
        let s3 := upd this (set_destroy None) s2 in
        Normal (upd this (set_running false) s3) tt
      else Normal s tt
  | _ => Wrong
  end.

(** [node.run()], dispatched on the class of the node. *)
Definition node_run (this : node_id) (s : state) : outcome unit :=
  match heap s !! this with
  | Some (mkNode _ _ _ _ (KSignal _)) => Normal (base_run this s) tt
  | Some (mkNode _ _ _ _ (KComputed _ _)) => computed_run this s
  | Some (mkNode _ _ _ _ (KEffect _ _ _ _)) => effect_run this s
  | None => Wrong
  end.

(** Schedule.autoRun *)
Definition autoRun_body (s : state) : outcome unit :=
  match dequeue s with
  | None => Normal s tt
  | Some (n, s1) =>
      do (s2, _) <- node_run n (log (EvRun n) s1);
      autoRun' s2
  end.

(** The constructors. *)
Definition new_signal (init : Z) (s : state) : node_id * state :=
  alloc (mkNode 1 false [] [] (KSignal init)) s.

Definition new_computed (fn : prog) (s : state) : node_id * state :=
  alloc (mkNode 1 true [] [] (KComputed None fn)) s.

Definition new_effect (fn : prog) (manual : bool) (s : state)
  : outcome node_id :=
  let (e, s1) := alloc (mkNode 1 false [] [] (KEffect fn None false manual)) s in
  if manual then Normal s1 e
  else do (s2, _) <- effect_run e s1; Normal s2 e.

(** One API call of a program, then the rest of the program. *)
Definition exec_body (p : prog) (s : state) : outcome retval :=
  match p with
  | Ret v => Normal s (RNum v)
  | RetFn c => Normal s (RFun c)
  | Throw => Thrown s
  | SignalGet x k => do (s1, v) <- signal_get x s; exec' (k v) s1
  | SignalPeek x k => do (s1, v) <- signal_peek x s; exec' (k v) s1
  | SignalSet x v k => do (s1, _) <- signal_set x v s; exec' k s1
  | ComputedGet c k => do (s1, v) <- computed_get c s; exec' (k v) s1
  | ComputedPeek c k => do (s1, v) <- computed_peek c s; exec' (k v) s1
  | EffectRun e k => do (s1, _) <- effect_run e s; exec' k s1
  | EffectStop e k => do (s1, _) <- effect_stop e s; exec' k s1
  | Batch u k => do (s1, _) <- batch u s; exec' k s1
  | NewSignal v k => let (x, s1) := new_signal v s in exec' (k x) s1
  | NewComputed fn k => let (c, s1) := new_computed fn s in exec' (k c) s1
  | NewEffect fn m k => do (s1, e) <- new_effect fn m s; exec' (k e) s1
  | Try b k =>
      match exec' b s with
      | Normal s1 _ => exec' (k true) s1
      | Thrown s1 => exec' (k false) s1
      | Diverge => Diverge
      | Wrong => Wrong
      end
  end.
End Methods.

(** ** Tying the knot *)

Fixpoint exec (fuel : nat) (p : prog) (s : state) {struct fuel}
  : outcome retval :=
  match fuel with
  | O => Diverge
  | S f => exec_body (exec f) (autoRun f) p s
  end
with autoRun (fuel : nat) (s : state) {struct fuel} : outcome unit :=
  match fuel with
  | O => Diverge
  | S f => autoRun_body (exec f) (autoRun f) s
  end.

(** * Basic facts about the data model *)

Lemma has_key_true (k : node_id) (m : list node_id) :
  has_key k m = true <-> k ∈ m.
Proof.
  unfold has_key. rewrite existsb_exists, list_elem_of_In. split.
  - intros (x & Hin & Heq). apply Nat.eqb_eq in Heq. by subst.
  - intros Hin. exists k. split; [done | apply Nat.eqb_refl].
Qed.

Lemma has_key_false (k : node_id) (m : list node_id) :
  has_key k m = false <-> k ∉ m.
Proof.
  rewrite <- has_key_true. destruct (has_key k m); intuition congruence.
Qed.

Lemma elem_of_put_key (k x : node_id) (m : list node_id) :
  x ∈ put_key k m <-> x = k \/ x ∈ m.
Proof.
  unfold put_key. destruct (has_key k m) eqn:E.
  - apply has_key_true in E. split; [tauto | intros [->|]; done].
  - rewrite elem_of_app, list_elem_of_singleton. tauto.
Qed.

Lemma elem_of_del_key (k x : node_id) (m : list node_id) :
  x ∈ del_key k m <-> x <> k /\ x ∈ m.
Proof.
  induction m as [|y m IH]; simpl.
  - split; [inversion 1 | intros [_ H]; inversion H].
  - destruct (Nat.eqb y k) eqn:E.
    + apply Nat.eqb_eq in E. subst y. rewrite IH, elem_of_cons. split.
      * tauto.
      * intros [Hne [->|H]]; [done | tauto].
    + apply Nat.eqb_neq in E. rewrite !elem_of_cons, IH. split.
      * intros [->|[? ?]]; tauto.
      * intros [Hne [->|H]]; tauto.
Qed.

Lemma lookup_upd (this a : node_id) (f : node -> node) (s : state) :
  heap (upd this f s) !! a
  = if decide (a = this) then f <$> heap s !! a else heap s !! a.
Proof.
  unfold upd. simpl. destruct (decide (a = this)) as [->|Hne].
  - apply list_lookup_alter_eq.
  - apply list_lookup_alter_ne. congruence.
Qed.

Lemma length_upd (this : node_id) (f : node -> node) (s : state) :
  length (heap (upd this f s)) = length (heap s).
Proof. unfold upd. simpl. apply length_alter. Qed.

Lemma last_Some_snoc {A : Type} (l : list A) (x : A) :
  last l = Some x -> l = removelast l ++ [x].
Proof.
  intros H. destruct (decide (l = [])) as [->|Hne]; [done |].
  destruct (exists_last Hne) as (l' & y & ->).
  rewrite last_snoc in H. injection H as ->.
  by rewrite removelast_last.
Qed.

Lemma fold_left_preserves {A : Type} (P : state -> Prop)
  (step : state -> A -> state) (l : list A) (s : state) :
  P s -> (forall st x, P st -> P (step st x)) -> P (fold_left step l s).
Proof.
  intros Hs Hstep. revert s Hs.
  induction l as [|x l IH]; simpl; intros s Hs; [done |].
  apply IH. by apply Hstep.
Qed.

Lemma length_release (this : node_id) (s : state) :
  length (heap (release this s)) = length (heap s).
Proof.
  unfold release. destruct (heap s !! this) as [n|]; [|done].
  rewrite !length_upd.
  apply (fold_left_preserves (fun st => length (heap st) = length (heap s)));
    [done |].
  intros st x Hst. by rewrite length_upd.
Qed.

(** * The atomic transitions of the engine

    Every change of the state made by a method is one of these, or the pop
    that closes an evaluation. *)

Inductive prim : state -> state -> Prop :=
| prim_collect this s : prim s (collect this s)
| prim_release this s : prim s (release this s)
| prim_updatePriority this s : prim s (updatePriority this s)
| prim_dirtyDownstream this s : prim s (dirtyDownstream this s)
| prim_set_value this v s : prim s (upd this (set_value v) s)
| prim_set_destroy this d s : prim s (upd this (set_destroy d) s)
| prim_set_running this r s : prim s (upd this (set_running r) s)
| prim_base_run this s : prim s (base_run this s)
| prim_log e s : prim s (log e s)
| prim_batchMode b s : prim s (set_batchMode b s)
| prim_batchQueue q s : prim s (set_batchQueue q s)
| prim_dequeue n s s' : dequeue s = Some (n, s') -> prim s s'
| prim_alloc n s : prev n = [] -> next n = [] -> prim s (alloc n s).2
| prim_push this s :
    (this < length (heap s))%nat -> prim s (addCurrentEffect this s).

(** * A proof rule for the whole engine

    A reflexive and transitive relation [Q] that contains the atomic
    transitions, and is closed under "push, evaluate, pop", relates the state
    before any call to the state in which the call returns or throws. *)

Section Relational.
Variable Q : state -> state -> Prop.
Hypothesis Q_refl : forall s, Q s s.
Hypothesis Q_trans : forall s1 s2 s3, Q s1 s2 -> Q s2 s3 -> Q s1 s3.
Hypothesis Q_prim : forall s s', prim s s' -> Q s s'.
Hypothesis Q_pop : forall this s s',
    (this < length (heap s))%nat ->
    Q (addCurrentEffect this s) s' -> Q s (popCurrentEffect this s').

Definition post {A : Type} (s : state) (o : outcome A) : Prop :=
  match o with
  | Normal s' _ | Thrown s' => Q s s'
  | Diverge | Wrong => True
  end.

Lemma post_trans {A : Type} (s s1 : state) (o : outcome A) :
  Q s s1 -> post s1 o -> post s o.
Proof. destruct o; simpl; eauto. Qed.

Lemma post_bind {A B : Type} (s : state) (m : outcome A)
  (k : state -> A -> outcome B) :
  post s m -> (forall s1 a, Q s s1 -> post s1 (k s1 a)) -> post s (bind m k).
Proof.
  destruct m as [s1 a|s1| |]; simpl; intros Hm Hk; try done.
  eapply post_trans; [exact Hm | by apply Hk].
Qed.

Ltac peel c := eapply Q_trans; [| apply Q_prim; apply c].

Section Step.
Variable exec' : prog -> state -> outcome retval.
Variable autoRun' : state -> outcome unit.
Hypothesis exec'_post : forall p s, post s (exec' p s).
Hypothesis autoRun'_post : forall s, post s (autoRun' s).

Lemma signal_get_post this s : post s (signal_get this s).
Proof.
  unfold signal_get.
  destruct (heap (collect this s) !! this) as [[? ? ? ? [v|? ?|? ? ? ?]]|];
    simpl; try done.
  apply Q_prim, prim_collect.
Qed.

Lemma signal_peek_post this s : post s (signal_peek this s).
Proof.
  unfold signal_peek.
  destruct (heap s !! this) as [[? ? ? ? [v|? ?|? ? ? ?]]|]; simpl; done.
Qed.

Lemma computed_peek_post this s : post s (computed_peek this s).
Proof.
  unfold computed_peek.
  destruct (heap s !! this) as [[? ? ? ? [v|? ?|? ? ? ?]]|]; simpl; done.
Qed.

Lemma signal_set_post this v s : post s (signal_set autoRun' this v s).
Proof.
  unfold signal_set.
  destruct (heap s !! this) as [[? ? ? ? [v0|? ?|? ? ? ?]]|]; simpl; try done.
  destruct (batchMode s); simpl.
  - peel prim_batchQueue. apply Q_prim, prim_set_value.
  - eapply post_trans; [| apply autoRun'_post].
    peel prim_dirtyDownstream. apply Q_prim, prim_set_value.
Qed.

Lemma batch_post u s : post s (batch exec' autoRun' u s).
Proof.
  unfold batch. eapply post_trans; [apply Q_prim, (prim_batchMode true) |].
  apply post_bind; [apply exec'_post |].
  intros s2 _ _. eapply post_trans; [| apply autoRun'_post].
  apply (fold_left_preserves (fun st => Q s2 st)).
  - apply Q_prim, prim_batchMode.
  - intros st x Hst. by peel prim_dirtyDownstream.
Qed.

Lemma ensureComputed_post this s : post s (ensureComputed exec' this s).
Proof.
  unfold ensureComputed.
  destruct (heap s !! this) as [[? d ? ? [v|v fn|? ? ? ?]]|] eqn:Hl;
    simpl; try done.
  destruct d; simpl; [| done].
  assert (Hlt : (this < length (heap (release this s)))%nat).
  { rewrite length_release. by eapply lookup_lt_Some. }
  pose proof (exec'_post fn
                (log (EvCompute this)
                     (addCurrentEffect this (release this s)))) as He.
  destruct (exec' fn _) as [s3 [v'|c]|s3| |]; simpl in *; try done.
  - peel prim_updatePriority.
    eapply Q_trans; [apply Q_prim, (prim_release this) |].
    apply Q_pop; [done |].
    peel prim_set_value.
    eapply Q_trans; [apply Q_prim, prim_log | exact He].
  - eapply Q_trans; [apply Q_prim, (prim_release this) |].
    eapply Q_trans; [apply Q_prim, prim_push; exact Hlt |].
    eapply Q_trans; [apply Q_prim, prim_log | exact He].
Qed.

Lemma computed_get_post this s : post s (computed_get exec' this s).
Proof.
  unfold computed_get.
  eapply post_trans; [apply Q_prim, (prim_collect this) |].
  apply post_bind; [apply ensureComputed_post |].
  intros s2 _ _.
  destruct (heap s2 !! this) as [[? ? ? ? [v|[v|] ?|? ? ? ?]]|]; simpl; done.
Qed.

Lemma computed_run_post this s : post s (computed_run exec' autoRun' this s).
Proof.
  unfold computed_run.
  apply post_bind; [apply ensureComputed_post |].
  intros s1 _ _. eapply post_trans; [| apply autoRun'_post].
  peel prim_dirtyDownstream. apply Q_prim, prim_base_run.
Qed.

Lemma effect_run_post this s : post s (effect_run exec' this s).
Proof.
  unfold effect_run.
  destruct (heap s !! this) as [[? ? ? ? [v|v fn|fn d r m]]|] eqn:Hl;
    simpl; try done.
  assert (Hlt : (this < length (heap (upd this (set_running true) s)))%nat).
  { rewrite length_upd. by eapply lookup_lt_Some. }
  set (s0 := upd this (set_running true) s) in *.
  pose proof (exec'_post fn
                (log (EvEffect this)
                     (release this (addCurrentEffect this s0)))) as He.
  destruct (exec' fn _) as [s3 r'|s3| |]; simpl in *; try done.
  - peel prim_base_run. peel prim_updatePriority.
    eapply Q_trans; [apply Q_prim, (prim_set_running this true) |].
    apply Q_pop; [done |].
    peel prim_set_destroy.
    eapply Q_trans; [apply Q_prim, (prim_release this) |].
    eapply Q_trans; [apply Q_prim, prim_log | exact He].
  - eapply Q_trans; [apply Q_prim, (prim_set_running this true) |].
    eapply Q_trans; [apply Q_prim, prim_push; exact Hlt |].
    eapply Q_trans; [apply Q_prim, (prim_release this) |].
    eapply Q_trans; [apply Q_prim, prim_log | exact He].
Qed.

Lemma effect_stop_post this s : post s (effect_stop exec' this s).
Proof.
  unfold effect_stop.
  destruct (heap s !! this) as [[? ? ? ? [v|v fn|fn d r m]]|] eqn:Hl;
    simpl; try done.
  destruct r; simpl; [| done].
  apply post_bind.
  - destruct d as [c|]; simpl; [| done].
    eapply post_trans; [apply Q_prim, prim_log |].
    apply post_bind; [apply exec'_post |]. intros; simpl; done.
  - intros s1 _ _. simpl.
    peel prim_set_running. peel prim_set_destroy.
    apply Q_prim, prim_release.
Qed.

Lemma node_run_post this s : post s (node_run exec' autoRun' this s).
Proof.
  unfold node_run.
  destruct (heap s !! this) as [[? ? ? ? [v|v fn|fn d r m]]|] eqn:Hl;
    simpl; try done.
  - apply Q_prim, prim_base_run.
  - apply computed_run_post.
  - apply effect_run_post.
Qed.

Lemma autoRun_body_post s : post s (autoRun_body exec' autoRun' s).
Proof.
  unfold autoRun_body. destruct (dequeue s) as [[n s1]|] eqn:Hd; simpl; [| done].
  eapply post_trans; [apply Q_prim, (prim_dequeue _ _ _ Hd) |].
  eapply post_trans; [apply Q_prim, prim_log |].
  apply post_bind; [apply node_run_post |].
  intros. apply autoRun'_post.
Qed.

Lemma new_effect_post fn m s : post s (new_effect exec' fn m s).
Proof.
  unfold new_effect, alloc.
  set (n := mkNode 1 false [] [] (KEffect fn None false m)).
  assert (Ha : Q s (alloc n s).2) by (by apply Q_prim, prim_alloc).
  destruct m; simpl; [exact Ha |].
  eapply post_trans; [exact Ha |].
  apply post_bind; [apply effect_run_post |]. intros; simpl; done.
Qed.

Lemma exec_body_post p s : post s (exec_body exec' autoRun' p s).
Proof.
  destruct p as [v|c| |x k|x k|x v k|c k|c k|e k|e k|u k|v k|fn k|fn m k|b k];
    simpl; try done.
  - apply post_bind; [apply signal_get_post | intros; apply exec'_post].
  - apply post_bind; [apply signal_peek_post | intros; apply exec'_post].
  - apply post_bind; [apply signal_set_post | intros; apply exec'_post].
  - apply post_bind; [apply computed_get_post | intros; apply exec'_post].
  - apply post_bind; [apply computed_peek_post | intros; apply exec'_post].
  - apply post_bind; [apply effect_run_post | intros; apply exec'_post].
  - apply post_bind; [apply effect_stop_post | intros; apply exec'_post].
  - apply post_bind; [apply batch_post | intros; apply exec'_post].
  - eapply post_trans; [| apply exec'_post].
    by apply Q_prim, (prim_alloc (mkNode 1 false [] [] (KSignal v))).
  - eapply post_trans; [| apply exec'_post].
    by apply Q_prim, (prim_alloc (mkNode 1 true [] [] (KComputed None fn))).
  - apply post_bind; [apply new_effect_post | intros; apply exec'_post].
  - pose proof (exec'_post b s) as Hb.
    destruct (exec' b s) as [s1 ?|s1| |]; simpl in *; try done;
      (eapply post_trans; [exact Hb | apply exec'_post]).
Qed.
End Step.

Theorem exec_autoRun_post (fuel : nat) :
  (forall p s, post s (exec fuel p s)) /\ (forall s, post s (autoRun fuel s)).
Proof.
  induction fuel as [|f [IHe IHa]]; [split; intros; exact I |].
  split; intros; simpl.
  - by apply exec_body_post.
  - by apply autoRun_body_post.
Qed.
End Relational.

(** * The scheduler *)

Lemma insert_sorted_perm (h : list node) (x : node_id) (l : list node_id) :
  insert_sorted h x l ≡ₚ x :: l.
Proof.
  induction l as [|y l IH]; simpl; [done |].
  destruct (cmp h x y <=? 0); [done |].
  rewrite IH. apply perm_swap.
Qed.

Lemma sort_perm (h : list node) (l : list node_id) : sort h l ≡ₚ l.
Proof.
  induction l as [|x l IH]; simpl; [done |].
  by rewrite insert_sorted_perm, IH.
Qed.

(** Descending priorities: every node is at least as heavy as those after it. *)
Definition desc (h : list node) (l : list node_id) : Prop :=
  StronglySorted (fun a b => prio h b <= prio h a) l.

Lemma insert_sorted_desc (h : list node) (x : node_id) (l : list node_id) :
  desc h l -> desc h (insert_sorted h x l).
Proof.
  unfold desc. induction l as [|y l IH]; simpl; intros Hl.
  - constructor; constructor.
  - apply StronglySorted_inv in Hl as [Hl Hy].
    destruct (cmp h x y <=? 0) eqn:E.
    + apply Z.leb_le in E. unfold cmp in E.
      constructor; [by constructor |].
      constructor; [lia |].
      eapply Forall_impl; [exact Hy |]. simpl. intros; lia.
    + apply Z.leb_gt in E. unfold cmp in E.
      constructor; [by apply IH |].
      rewrite insert_sorted_perm. constructor; [lia | done].
Qed.

Lemma sort_desc (h : list node) (l : list node_id) : desc h (sort h l).
Proof.
  induction l as [|x l IH]; simpl; [constructor |].
  by apply insert_sorted_desc.
Qed.

Lemma desc_last_min (h : list node) (l : list node_id) (n : node_id) :
  desc h (l ++ [n]) -> forall x, x ∈ l ++ [n] -> prio h n <= prio h x.
Proof.
  unfold desc. induction l as [|y l IH]; simpl; intros Hl x Hx.
  - apply list_elem_of_singleton in Hx. subst. lia.
  - apply StronglySorted_inv in Hl as [Hl Hy].
    apply elem_of_cons in Hx as [->|Hx]; [| by apply IH].
    rewrite Forall_forall in Hy. apply Hy.
    rewrite elem_of_app, list_elem_of_singleton. by right.
Qed.

(** What [dequeue] returns: the sorted queue is the new queue followed by the
    node taken out. *)
Lemma dequeue_Some (s s' : state) (n : node_id) :
  dequeue s = Some (n, s') ->
  sort (heap s) (queue s) = queue s' ++ [n]
  /\ queueIndex s' = del_key n (queueIndex s)
  /\ heap s' = heap s /\ effectStack s' = effectStack s
  /\ batchMode s' = batchMode s /\ batchQueue s' = batchQueue s
  /\ trace s' = trace s.
Proof.
  unfold dequeue. destruct (last (sort (heap s) (queue s))) as [m|] eqn:E; [|done].
  intros [= <- <-]. simpl. by apply last_Some_snoc in E.
Qed.

Lemma dequeue_None (s : state) : dequeue s = None <-> queue s = [].
Proof.
  unfold dequeue. split.
  - destruct (last _) eqn:E; [done |]. intros _.
    apply last_None in E. apply Permutation_nil_r. by rewrite <- E, sort_perm.
  - intros ->. done.
Qed.

Lemma dequeue_min (s s' : state) (n : node_id) :
  dequeue s = Some (n, s') ->
  n ∈ queue s
  /\ forall x, x ∈ queue s -> prio (heap s) n <= prio (heap s) x.
Proof.
  intros (Hq & _)%dequeue_Some.
  pose proof (sort_desc (heap s) (queue s)) as Hd. rewrite Hq in Hd.
  pose proof (sort_perm (heap s) (queue s)) as Hp. rewrite Hq in Hp.
  split.
  - rewrite <- Hp, elem_of_app, list_elem_of_singleton. by right.
  - intros x Hx. apply (desc_last_min _ _ _ Hd). by rewrite Hp.
Qed.

(** The scheduler invariant: no node is queued twice, and the index holds
    exactly the ids of the queued nodes. *)
Definition sched_ok (s : state) : Prop :=
  NoDup (queue s) /\ forall x, x ∈ queueIndex s <-> x ∈ queue s.

Lemma sched_ok_frame (s s' : state) :
  queue s' = queue s -> queueIndex s' = queueIndex s ->
  sched_ok s -> sched_ok s'.
Proof. unfold sched_ok. by intros -> ->. Qed.

Lemma addEffectTask_sched_ok (n : node_id) (s : state) :
  sched_ok s -> sched_ok (addEffectTask n s).
Proof.
  unfold addEffectTask, sched_ok. intros [Hnd Hix].
  destruct (has_key n (queueIndex s)) eqn:E; [done |]. simpl.
  apply has_key_false in E. split.
  - apply NoDup_app. split_and!; [done | | apply NoDup_singleton].
    intros x Hx ->%list_elem_of_singleton. apply E. by apply Hix.
  - intros x. rewrite !elem_of_app. by rewrite Hix.
Qed.

Lemma dequeue_sched_ok (s s' : state) (n : node_id) :
  dequeue s = Some (n, s') -> sched_ok s ->
  sched_ok s' /\ (n ∉ queue s') /\ (n ∉ queueIndex s').
Proof.
  intros (Hq & Hi & _)%dequeue_Some [Hnd Hix].
  pose proof (sort_perm (heap s) (queue s)) as Hp. rewrite Hq in Hp.
  rewrite <- Hp in Hnd. apply NoDup_app in Hnd as (Hnd & Hdis & _).
  assert (Hn : n ∉ queue s').
  { intros Hin. apply (Hdis _ Hin). by apply list_elem_of_singleton. }
  unfold sched_ok. rewrite Hi. split_and!; try done.
  - intros x. rewrite elem_of_del_key, Hix, <- Hp, elem_of_app,
      list_elem_of_singleton.
    split; [tauto |]. intros Hx. split; [| by left]. by intros ->.
  - rewrite elem_of_del_key. tauto.
Qed.

(** * The dependency graph *)

Definition prevs (s : state) (a : node_id) : list node_id :=
  match heap s !! a with
  | Some n => prev n
  | None => []
  end.

Definition nexts (s : state) (a : node_id) : list node_id :=
  match heap s !! a with
  | Some n => next n
  | None => []
  end.

(** Edge mirroring: A is in B's upstream iff B is in A's downstream. *)
Definition mirror (s : state) : Prop :=
  forall a b, a ∈ prevs s b <-> b ∈ nexts s a.

(** The evaluation stack holds existing objects. *)
Definition stack_ok (s : state) : Prop :=
  forall x, x ∈ effectStack s -> (x < length (heap s))%nat.

Definition graph_ok (s : state) : Prop := mirror s /\ stack_ok s.

(** Transitions that touch neither an edge nor the stack. *)
Definition same_graph (s s' : state) : Prop :=
  (forall a, prevs s' a = prevs s a)
  /\ (forall a, nexts s' a = nexts s a)
  /\ length (heap s') = length (heap s)
  /\ effectStack s' = effectStack s.

Lemma same_graph_refl (s : state) : same_graph s s.
Proof. by repeat split. Qed.

Lemma same_graph_trans (s1 s2 s3 : state) :
  same_graph s1 s2 -> same_graph s2 s3 -> same_graph s1 s3.
Proof.
  intros (Hp & Hn & Hl & Hs) (Hp' & Hn' & Hl' & Hs'). repeat split.
  - intros a. by rewrite Hp', Hp.
  - intros a. by rewrite Hn', Hn.
  - by rewrite Hl', Hl.
  - by rewrite Hs', Hs.
Qed.

Lemma same_graph_ok (s s' : state) :
  same_graph s s' -> graph_ok s -> graph_ok s'.
Proof.
  intros (Hp & Hn & Hl & Hs) [Hm Hk]. split.
  - intros a b. by rewrite Hp, Hn.
  - intros x. rewrite Hs, Hl. apply Hk.
Qed.

Lemma prevs_upd (this a : node_id) (f : node -> node) (s : state) :
  prevs (upd this f s) a
  = if decide (a = this)
    then match heap s !! this with Some n => prev (f n) | None => [] end
    else prevs s a.
Proof.
  unfold prevs. rewrite lookup_upd.
  destruct (decide (a = this)) as [->|]; [| done].
  by destruct (heap s !! this).
Qed.

Lemma nexts_upd (this a : node_id) (f : node -> node) (s : state) :
  nexts (upd this f s) a
  = if decide (a = this)
    then match heap s !! this with Some n => next (f n) | None => [] end
    else nexts s a.
Proof.
  unfold nexts. rewrite lookup_upd.
  destruct (decide (a = this)) as [->|]; [| done].
  by destruct (heap s !! this).
Qed.

Lemma upd_same_graph (this : node_id) (f : node -> node) (s : state) :
  (forall n, prev (f n) = prev n) -> (forall n, next (f n) = next n) ->
  same_graph s (upd this f s).
Proof.
  intros Hp Hn. repeat split.
  - intros a. rewrite prevs_upd. case_decide; [subst | done].
    unfold prevs. destruct (heap s !! this); [apply Hp | done].
  - intros a. rewrite nexts_upd. case_decide; [subst | done].
    unfold nexts. destruct (heap s !! this); [apply Hn | done].
  - apply length_upd.
Qed.

Lemma set_value_edges (v : Z) (n : node) :
  prev (set_value v n) = prev n /\ next (set_value v n) = next n.
Proof. unfold set_value. by destruct (kind n). Qed.

Lemma set_destroy_edges (d : option prog) (n : node) :
  prev (set_destroy d n) = prev n /\ next (set_destroy d n) = next n.
Proof. unfold set_destroy. by destruct (kind n). Qed.

Lemma set_running_edges (r : bool) (n : node) :
  prev (set_running r n) = prev n /\ next (set_running r n) = next n.
Proof. unfold set_running. by destruct (kind n). Qed.

Lemma addEffectTask_same_graph (n : node_id) (s : state) :
  same_graph s (addEffectTask n s).
Proof.
  unfold addEffectTask. destruct (has_key n (queueIndex s)); by repeat split.
Qed.

Lemma dirtyDownstream_same_graph (this : node_id) (s : state) :
  same_graph s (dirtyDownstream this s).
Proof.
  unfold dirtyDownstream.
  destruct (heap s !! this) as [n|]; [| apply same_graph_refl].
  apply (fold_left_preserves (same_graph s)); [apply same_graph_refl |].
  intros st x Hst. eapply same_graph_trans; [exact Hst |].
  eapply same_graph_trans; [| apply addEffectTask_same_graph].
  by apply upd_same_graph.
Qed.

Lemma updatePriority_same_graph (this : node_id) (s : state) :
  same_graph s (updatePriority this s).
Proof.
  unfold updatePriority.
  destruct (heap s !! this) as [n|]; [| apply same_graph_refl].
  by apply upd_same_graph.
Qed.

Lemma dequeue_same_graph (s s' : state) (n : node_id) :
  dequeue s = Some (n, s') -> same_graph s s'.
Proof.
  intros (_ & _ & Hh & Hs & _)%dequeue_Some.
  unfold same_graph, prevs, nexts. rewrite Hh, Hs. by repeat split.
Qed.

Lemma lookup_alloc (n : node) (s : state) (a : node_id) :
  heap (alloc n s).2 !! a
  = if decide (a = length (heap s)) then Some n else heap s !! a.
Proof.
  unfold alloc. simpl. destruct (decide (a = length (heap s))) as [->|Hne].
  - rewrite lookup_app_r by lia. by rewrite Nat.sub_diag.
  - destruct (decide (a < length (heap s))%nat).
    + by rewrite lookup_app_l.
    + rewrite !lookup_ge_None_2; [done | lia |].
      rewrite length_app. simpl. lia.
Qed.

Lemma alloc_edges (n : node) (s : state) :
  prev n = [] -> next n = [] ->
  (forall a, prevs (alloc n s).2 a = prevs s a)
  /\ (forall a, nexts (alloc n s).2 a = nexts s a).
Proof.
  intros Hp Hn. unfold prevs, nexts.
  split; intros a; rewrite lookup_alloc; case_decide; try done; subst.
  - rewrite (lookup_ge_None_2 (heap s)) by lia. done.
  - rewrite (lookup_ge_None_2 (heap s)) by lia. done.
Qed.

Lemma elem_of_removelast {A : Type} (l : list A) (x : A) :
  x ∈ removelast l -> x ∈ l.
Proof.
  destruct (decide (l = [])) as [->|Hne]; [done |].
  destruct (exists_last Hne) as (l' & y & ->).
  rewrite removelast_last, elem_of_app. by left.
Qed.

Lemma last_elem_of {A : Type} (l : list A) (x : A) : last l = Some x -> x ∈ l.
Proof.
  intros H. rewrite (last_Some_snoc _ _ H), elem_of_app, list_elem_of_singleton.
  by right.
Qed.

(** [collect] adds the edge this -> cur to both halves, or nothing. *)
Lemma collect_graph_ok (this : node_id) (s : state) :
  graph_ok s -> graph_ok (collect this s).
Proof.
  intros [Hm Hk]. unfold collect.
  destruct (last (effectStack s)) as [cur|] eqn:Hcur; [| done].
  destruct (heap s !! this) as [n|] eqn:Hthis; [| done].
  destruct (has_key cur (next n)) eqn:Hhas; [done |].
  apply last_elem_of, Hk, lookup_lt_is_Some in Hcur as [c Hc].
  set (s1 := upd this (fun x => set_next (put_key cur (next x)) x) s).
  set (s2 := upd cur (fun c => set_prev (put_key this (prev c)) c) s1).
  assert (Hc1 : exists c1, heap s1 !! cur = Some c1 /\ prev c1 = prev c).
  { destruct (decide (cur = this)) as [Heq|Hne].
    - eexists. unfold s1. rewrite lookup_upd, decide_True, Hc by done.
      simpl. split; [reflexivity | done].
    - exists c. unfold s1. by rewrite lookup_upd, decide_False. }
  destruct Hc1 as (c1 & Hc1 & Hpc1).
  split.
  - intros a b.
    destruct (upd_same_graph cur
                (fun c => set_priority (priority c + prio (heap s2) this) c) s2)
      as (Hp3 & Hn3 & _); [done | done |].
    assert (Hnx : nexts s2 a = nexts s1 a).
    { unfold s2. rewrite nexts_upd. case_decide; [subst | done].
      unfold nexts. by rewrite Hc1. }
    assert (Hpv : a ∈ prevs s2 b <-> (a = this /\ b = cur) \/ a ∈ prevs s b).
    { unfold s2. rewrite prevs_upd, Hc1. simpl. case_decide; subst.
      - rewrite elem_of_put_key, Hpc1. unfold prevs. rewrite Hc. tauto.
      - unfold s1. rewrite prevs_upd. simpl.
        case_decide; subst; unfold prevs; rewrite ?Hthis; simpl; tauto. }
    assert (Hnx1 : b ∈ nexts s1 a <-> (a = this /\ b = cur) \/ b ∈ nexts s a).
    { unfold s1. rewrite nexts_upd, Hthis. simpl. case_decide; subst.
      - rewrite elem_of_put_key. unfold nexts. rewrite Hthis. tauto.
      - tauto. }
    rewrite Hp3, Hn3, Hpv, Hnx, Hnx1, (Hm a b). tauto.
  - intros x Hx. unfold s2, s1. rewrite !length_upd. by apply Hk.
Qed.

(** The loop of [release]: [this] leaves the downstream of every node of [l]. *)
Lemma release_loop (this : node_id) (l : list node_id) (s : state) :
  let s' := fold_left
              (fun st p => upd p (fun x => set_next (del_key this (next x)) x) st)
              l s in
  (forall a b, b ∈ nexts s' a <-> b ∈ nexts s a /\ (a ∈ l -> b <> this))
  /\ (forall a, prevs s' a = prevs s a)
  /\ (forall a, is_Some (heap s' !! a) <-> is_Some (heap s !! a))
  /\ effectStack s' = effectStack s.
Proof.
  revert s. induction l as [|p l IH]; intros s; simpl.
  - split_and!; try done. intros a b. split; [| tauto].
    intros H. split; [done |]. inversion 1.
  - set (s1 := upd p (fun x => set_next (del_key this (next x)) x) s).
    destruct (IH s1) as (Hn & Hp & Hh & Hs). split_and!.
    + intros a b. rewrite Hn. unfold s1. rewrite nexts_upd, elem_of_cons.
      destruct (decide (a = p)) as [->|Hne].
      * unfold nexts. destruct (heap s !! p); simpl.
        -- rewrite elem_of_del_key. tauto.
        -- split; [intros [H _]; inversion H | intros [H _]; inversion H].
      * tauto.
    + intros a. rewrite Hp. unfold s1. rewrite prevs_upd.
      case_decide; [subst | done]. unfold prevs. by destruct (heap s !! p).
    + intros a. rewrite Hh. unfold s1. rewrite lookup_upd.
      case_decide; [| done]. by rewrite fmap_is_Some.
    + by rewrite Hs.
Qed.

Lemma prevs_clear (this b : node_id) (s : state) :
  prevs (upd this (set_prev []) s) b
  = if decide (b = this) then [] else prevs s b.
Proof.
  rewrite prevs_upd. case_decide; [| done]. by destruct (heap s !! this).
Qed.

Lemma nexts_clear (this a : node_id) (s : state) :
  nexts (upd this (set_prev []) s) a = nexts s a.
Proof.
  rewrite nexts_upd. case_decide; [subst | done].
  unfold nexts. by destruct (heap s !! this).
Qed.

(** [release] removes every edge into [this], in both halves. *)
Lemma release_graph_ok (this : node_id) (s : state) :
  graph_ok s -> graph_ok (release this s).
Proof.
  intros [Hm Hk]. split; [| intros x Hx; rewrite length_release; apply Hk; revert Hx].
  - unfold release. destruct (heap s !! this) as [n|] eqn:Hthis; [| done].
    destruct (release_loop this (prev n) s) as (Hn & Hp & Hh & _).
    set (s1 := fold_left _ (prev n) s) in *.
    assert (Hprev : prevs s this = prev n) by (unfold prevs; by rewrite Hthis).
    destruct (upd_same_graph this (set_priority 1) s1) as (Hp2 & Hn2 & _);
      [done | done |].
    intros a b. rewrite prevs_clear, nexts_clear, Hn2, Hn, Hp2, Hp.
    destruct (decide (b = this)) as [->|Hb].
    + rewrite <- (Hm a this), Hprev. split; [inversion 1 | tauto].
    + rewrite (Hm a b). tauto.
  - unfold release. destruct (heap s !! this) as [n|]; [| done].
    simpl. apply (fold_left_preserves
                    (fun st => x ∈ effectStack st -> x ∈ effectStack s)); done.
Qed.

Lemma push_graph_ok (this : node_id) (s : state) :
  (this < length (heap s))%nat -> graph_ok s ->
  graph_ok (addCurrentEffect this s).
Proof.
  intros Hlt [Hm Hk]. split; [done |].
  intros x. unfold addCurrentEffect. simpl.
  rewrite elem_of_app, list_elem_of_singleton. intros [Hx| ->]; [by apply Hk | done].
Qed.

Lemma pop_graph_ok (this : node_id) (s : state) :
  graph_ok s -> graph_ok (popCurrentEffect this s).
Proof.
  intros [Hm Hk]. unfold popCurrentEffect.
  destruct (last (effectStack s)) as [top|]; [| done].
  destruct (Nat.eqb top this); [| done].
  split; [done |]. intros x Hx. simpl in Hx.
  by apply Hk, elem_of_removelast.
Qed.

Lemma prim_graph_ok (s s' : state) : prim s s' -> graph_ok s -> graph_ok s'.
Proof.
  destruct 1 as [this s|this s|this s|this s|this v s|this d s|this r s|this s
                |e s|b s|q s|n s s' Hd|n s Hp Hn|this s Hlt].
  - apply collect_graph_ok.
  - apply release_graph_ok.
  - apply same_graph_ok, updatePriority_same_graph.
  - apply same_graph_ok, dirtyDownstream_same_graph.
  - apply same_graph_ok, upd_same_graph; intros; apply set_value_edges.
  - apply same_graph_ok, upd_same_graph; intros; apply set_destroy_edges.
  - apply same_graph_ok, upd_same_graph; intros; apply set_running_edges.
  - by apply same_graph_ok, upd_same_graph.
  - by apply same_graph_ok.
  - by apply same_graph_ok.
  - by apply same_graph_ok.
  - by apply same_graph_ok, (dequeue_same_graph _ _ n).
  - intros [Hm Hk]. destruct (alloc_edges n s Hp Hn) as [Hpv Hnx]. split.
    + intros a b. by rewrite Hpv, Hnx.
    + intros x Hx. unfold alloc. simpl. rewrite length_app.
      specialize (Hk x Hx). lia.
  - by apply push_graph_ok.
Qed.

(** The invariant holds when any call returns or throws. *)
Theorem exec_graph_ok (fuel : nat) (p : prog) (s s' : state) :
  graph_ok s ->
  (exists r, exec fuel p s = Normal s' r) \/ exec fuel p s = Thrown s' ->
  graph_ok s'.
Proof.
  intros Hs Hex.
  pose proof (exec_autoRun_post (fun a b => graph_ok a -> graph_ok b)) as H.
  destruct (H (fun _ h => h) (fun _ _ _ h1 h2 h => h2 (h1 h)) prim_graph_ok) with (fuel := fuel)
    as [He _].
  - intros this a b Hlt Hab Ha.
    by apply pop_graph_ok, Hab, push_graph_ok.
  - specialize (He p s). destruct Hex as [[r Hr]|Hr]; rewrite Hr in He; by apply He.
Qed.

(** * Transitions that only change objects *)

Definition heap_only (s s' : state) : Prop := s' = set_heap (heap s') s.

Lemma heap_only_refl (s : state) : heap_only s s.
Proof. by destruct s. Qed.

Lemma heap_only_trans (s1 s2 s3 : state) :
  heap_only s1 s2 -> heap_only s2 s3 -> heap_only s1 s3.
Proof. unfold heap_only. intros H12 H23. rewrite H23, H12. done. Qed.

Lemma heap_only_upd (this : node_id) (f : node -> node) (s : state) :
  heap_only s (upd this f s).
Proof. done. Qed.

Lemma heap_only_collect (this : node_id) (s : state) :
  heap_only s (collect this s).
Proof.
  unfold collect. destruct (last (effectStack s)) as [cur|]; [| apply heap_only_refl].
  destruct (heap s !! this) as [nd|]; [| apply heap_only_refl].
  destruct (has_key _ _); [apply heap_only_refl | done].
Qed.

Lemma heap_only_release (this : node_id) (s : state) :
  heap_only s (release this s).
Proof.
  unfold release. destruct (heap s !! this) as [n|]; [| apply heap_only_refl].
  eapply heap_only_trans; [| apply heap_only_upd].
  eapply heap_only_trans; [| apply heap_only_upd].
  apply (fold_left_preserves (heap_only s)); [apply heap_only_refl |].
  intros st x Hst. eapply heap_only_trans; [exact Hst | apply heap_only_upd].
Qed.

Lemma heap_only_updatePriority (this : node_id) (s : state) :
  heap_only s (updatePriority this s).
Proof.
  unfold updatePriority. destruct (heap s !! this); [done | apply heap_only_refl].
Qed.

Lemma heap_only_fields (s s' : state) :
  heap_only s s' ->
  queue s' = queue s /\ queueIndex s' = queueIndex s
  /\ effectStack s' = effectStack s /\ batchMode s' = batchMode s
  /\ batchQueue s' = batchQueue s /\ trace s' = trace s.
Proof. intros ->. done. Qed.

(** * Reachable states

    The states a caller of the public API can observe: the initial one, and
    the state in which a call made from an observable state returns or
    throws.  Cutting a closure short with [Throw] shows the states its body
    runs in. *)

Inductive reachable : state -> Prop :=
| reach_init : reachable init
| reach_return fuel p s s' r :
    reachable s -> exec fuel p s = Normal s' r -> reachable s'
| reach_throw fuel p s s' :
    reachable s -> exec fuel p s = Thrown s' -> reachable s'.

Lemma dirtyDownstream_sched_ok (this : node_id) (s : state) :
  sched_ok s -> sched_ok (dirtyDownstream this s).
Proof.
  intros Hs. unfold dirtyDownstream. destruct (heap s !! this) as [n|]; [| done].
  apply (fold_left_preserves sched_ok); [done |].
  intros st x Hst. by apply addEffectTask_sched_ok.
Qed.

Lemma prim_sched_ok (s s' : state) : prim s s' -> sched_ok s -> sched_ok s'.
Proof.
  destruct 1 as [this s|this s|this s|this s|this v s|this d s|this r s|this s
                |e s|b s|q s|n s s' Hd|n s Hp Hn|this s Hlt]; try done.
  - destruct (heap_only_fields _ _ (heap_only_collect this s)) as (Hq & Hi & _).
    by apply sched_ok_frame.
  - destruct (heap_only_fields _ _ (heap_only_release this s)) as (Hq & Hi & _).
    by apply sched_ok_frame.
  - destruct (heap_only_fields _ _ (heap_only_updatePriority this s))
      as (Hq & Hi & _).
    by apply sched_ok_frame.
  - apply dirtyDownstream_sched_ok.
  - intros Hs. by destruct (dequeue_sched_ok _ _ _ Hd Hs).
Qed.

Lemma pop_sched_ok (this : node_id) (s : state) :
  sched_ok s -> sched_ok (popCurrentEffect this s).
Proof.
  unfold popCurrentEffect. destruct (last (effectStack s)); [| done].
  by destruct (Nat.eqb _ _).
Qed.

Theorem exec_sched_ok (fuel : nat) (p : prog) (s s' : state) :
  sched_ok s ->
  (exists r, exec fuel p s = Normal s' r) \/ exec fuel p s = Thrown s' ->
  sched_ok s'.
Proof.
  intros Hs Hex.
  pose proof (exec_autoRun_post (fun a b => sched_ok a -> sched_ok b)) as H.
  destruct (H (fun _ h => h) (fun _ _ _ h1 h2 h => h2 (h1 h)) prim_sched_ok)
    with (fuel := fuel) as [He _].
  - intros this a b Hlt Hab Ha. by apply pop_sched_ok, Hab.
  - specialize (He p s). destruct Hex as [[r Hr]|Hr]; rewrite Hr in He; by apply He.
Qed.

Lemma init_graph_ok : graph_ok init.
Proof.
  split.
  - intros a b. unfold prevs, nexts, init. simpl. split; inversion 1.
  - intros x. inversion 1.
Qed.

Lemma init_sched_ok : sched_ok init.
Proof. split; [constructor | done]. Qed.

Lemma reachable_graph_ok (s : state) : reachable s -> graph_ok s.
Proof.
  induction 1 as [|fuel p s s' r _ IH He|fuel p s s' _ IH He].
  - apply init_graph_ok.
  - eapply exec_graph_ok; [exact IH | left; eauto].
  - eapply exec_graph_ok; [exact IH | right; eauto].
Qed.

Lemma reachable_sched_ok (s : state) : reachable s -> sched_ok s.
Proof.
  induction 1 as [|fuel p s s' r _ IH He|fuel p s s' _ IH He].
  - apply init_sched_ok.
  - eapply exec_sched_ok; [exact IH | left; eauto].
  - eapply exec_sched_ok; [exact IH | right; eauto].
Qed.

(** * A running example

    The program at the end of src/index.ts: two signals, a Computed over the
    first, an Effect reading the first signal and the Computed. *)

Definition demo_effect (num num2 : node_id) : prog :=
  SignalGet num (fun _ => ComputedGet num2 (fun _ => Ret 0)).

Definition demo : prog :=
  NewSignal 1 (fun num =>
  NewSignal 1 (fun num1 =>
  NewComputed (SignalGet num (fun v => Ret (v + 1))) (fun num2 =>
  NewEffect (demo_effect num num2) false (fun _ =>
  Ret 0)))).

Definition state_of {A : Type} (o : outcome A) : state :=
  match o with
  | Normal s _ | Thrown s => s
  | Diverge | Wrong => init
  end.

Definition demo_state : state := state_of (exec 20 demo init).

Lemma demo_reachable : reachable demo_state.
Proof.
  apply (reach_return 20 demo init demo_state (RNum 0)); [apply reach_init |].
  vm_compute. reflexivity.
Defined.

Example demo_graph :
  map (fun n => (priority n, dirty n, prev n, next n)) (heap demo_state)
  = [(1, false, [], [3; 2]%nat); (1, false, [], []);
     (1, true, [0%nat], [3%nat]); (2, false, [0; 2]%nat, [])]
  /\ trace demo_state = [EvEffect 3; EvCompute 2].
Proof. vm_compute. done. Qed.

(** The first signal has been written and its downstream marked, the drain
    has not started yet. *)
Definition demo_pending : state :=
  dirtyDownstream 0 (upd 0 (set_value 5) demo_state).

Example demo_pending_queue :
  queue demo_pending = [3; 2]%nat /\ queueIndex demo_pending = [3; 2]%nat.
Proof. vm_compute. done. Qed.

Lemma demo_pending_sched_ok : sched_ok demo_pending.
Proof.
  split.
  - vm_compute. repeat constructor; rewrite ?list_elem_of_In; simpl; intuition lia.
  - intros x. by vm_compute.
Defined.

(** * Claims about the graph and the scheduler *)

(** C4.  Edge mirroring holds in every reachable state: A is in B's upstream
    ([prev]) iff B is in A's downstream ([next]); a [collect] or a [release]
    made in such a state keeps it, since each changes both halves of an
    edge. *)
Theorem C4_edge_mirroring (s : state) (Hr : reachable s) :
  (forall a b, a ∈ prevs s b <-> b ∈ nexts s a)
  /\ (forall this a b,
        a ∈ prevs (collect this s) b <-> b ∈ nexts (collect this s) a)
  /\ (forall this a b,
        a ∈ prevs (release this s) b <-> b ∈ nexts (release this s) a).
Proof.
  pose proof (reachable_graph_ok s Hr) as Hg. split_and!.
  - apply Hg.
  - intros this. apply (collect_graph_ok this s Hg).
  - intros this. apply (release_graph_ok this s Hg).
Qed.

Lemma C4_edge_mirroring_witness :
  reachable demo_state
  /\ (forall a b, a ∈ prevs demo_state b <-> b ∈ nexts demo_state a).
Proof.
  split; [exact demo_reachable |].
  exact (proj1 (C4_edge_mirroring demo_state demo_reachable)).
Defined.

Lemma autoRun_returns_empty (fuel : nat) (s s' : state) (u : unit) :
  autoRun fuel s = Normal s' u -> queue s' = [].
Proof.
  revert s. induction fuel as [|f IH]; intros s; simpl; [done |].
  unfold autoRun_body. destruct (dequeue s) as [[n s1]|] eqn:Hd.
  - destruct (node_run _ _ n _) as [s2 ?|?| |]; simpl; try done. apply IH.
  - intros [= <- _]. by apply dequeue_None.
Qed.

(** C5.  One iteration of the drain on a non-empty queue: the node taken has
    the smallest priority of the pending nodes; it is out of the queue and of
    the index before its [run()] is called, so submitting it again during the
    run queues it; every other pending node stays in the queue (the sorted
    queue without its last element) and in the index, and nothing else of the
    state changes; after the run the drain goes on, and it returns only with
    an empty queue. *)
Theorem C5_drain_order (fuel : nat) (s : state)
  (Hs : sched_ok s) (Hq : queue s <> []) :
  exists n s1,
    dequeue s = Some (n, s1)
    /\ n ∈ queue s
    /\ (forall x, x ∈ queue s -> prio (heap s) n <= prio (heap s) x)
    /\ (n ∉ queue s1) /\ (n ∉ queueIndex s1)
    /\ sort (heap s) (queue s) = queue s1 ++ [n]
    /\ queueIndex s1 = del_key n (queueIndex s)
    /\ (forall x, x <> n ->
          (x ∈ queue s1 <-> x ∈ queue s)
          /\ (x ∈ queueIndex s1 <-> x ∈ queueIndex s))
    /\ s1 = set_queueIndex (queueIndex s1) (set_queue (queue s1) s)
    /\ sched_ok s1
    /\ n ∈ queue (addEffectTask n s1)
    /\ autoRun (S fuel) s
       = (do (s2, _) <- node_run (exec fuel) (autoRun fuel) n (log (EvRun n) s1);
          autoRun fuel s2)
    /\ (forall s' u, autoRun (S fuel) s = Normal s' u -> queue s' = []).
Proof.
  destruct (dequeue s) as [[n s1]|] eqn:Hd; [| by apply dequeue_None in Hd].
  exists n, s1.
  destruct (dequeue_min _ _ _ Hd) as [Hin Hmin].
  destruct (dequeue_sched_ok _ _ _ Hd Hs) as (Hs1 & Hnq & Hni).
  destruct (dequeue_Some _ _ _ Hd) as (Hsort & Hidx & Hh & Hst & Hbm & Hbq & Htr).
  pose proof (sort_perm (heap s) (queue s)) as Hp. rewrite Hsort in Hp.
  split_and!; try done.
  - intros x Hne. split.
    + rewrite <- Hp, elem_of_app, list_elem_of_singleton. tauto.
    + rewrite Hidx, elem_of_del_key. tauto.
  - destruct s, s1. simpl in *. by subst.
  - unfold addEffectTask. apply has_key_false in Hni. rewrite Hni. simpl.
    rewrite elem_of_app, list_elem_of_singleton. by right.
  - simpl. unfold autoRun_body. by rewrite Hd.
  - intros s' u. apply autoRun_returns_empty.
Qed.

Lemma C5_drain_order_witness :
  sched_ok demo_pending /\ queue demo_pending <> []
  /\ exists n s1, dequeue demo_pending = Some (n, s1)
                  /\ (n ∉ queue s1)
                  /\ sort (heap demo_pending) [3; 2]%nat = queue s1 ++ [n]
                  /\ exists s', autoRun 11 demo_pending = Normal s' tt
                                /\ queue s' = [].
Proof.
  assert (Hq : queue demo_pending <> []) by (by vm_compute).
  split; [exact demo_pending_sched_ok |]. split; [exact Hq |].
  destruct (C5_drain_order 10 demo_pending demo_pending_sched_ok Hq)
    as (n & s1 & Hd & _ & _ & Hn & _ & Hsort & _ & _ & _ & _ & _ & _ & He).
  exists n, s1. split_and!; [done | done | exact Hsort |].
  exists (state_of (autoRun 11 demo_pending)).
  assert (Hr : autoRun 11 demo_pending
               = Normal (state_of (autoRun 11 demo_pending)) tt)
    by (vm_compute; reflexivity).
  split; [exact Hr | exact (He _ _ Hr)].
Defined.

Example demo_dequeue :
  exists s1, dequeue demo_pending = Some (2%nat, s1)
             /\ queue s1 = [3%nat] /\ queueIndex s1 = [3%nat].
Proof. eexists. split; [vm_compute; reflexivity |]. by vm_compute. Qed.

Example demo_drain :
  trace (state_of (autoRun 11 demo_pending))
  = trace demo_pending ++ [EvRun 2; EvCompute 2; EvRun 3; EvEffect 3]
  /\ queue (state_of (autoRun 11 demo_pending)) = [].
Proof. vm_compute. done. Qed.

(** C6.  Submitting a node whose id is in the index changes nothing; in every
    reachable state no node is queued twice and the index holds exactly the
    ids of the queued nodes. *)
Theorem C6_pending_dedup (s : state) (n : node_id) (Hr : reachable s) :
  (n ∈ queueIndex s -> addEffectTask n s = s)
  /\ NoDup (queue s)
  /\ (forall x, x ∈ queueIndex s <-> x ∈ queue s).
Proof.
  destruct (reachable_sched_ok s Hr) as [Hnd Hix]. split_and!; try done.
  intros Hin. unfold addEffectTask. apply has_key_true in Hin. by rewrite Hin.
Qed.

(** A drain cut short: the second effect throws when the signal is not 1, so
    the write throws while the first effect is still pending. *)
Definition pending_after_throw : prog :=
  NewSignal 1 (fun a =>
  NewEffect (SignalGet a (fun _ => Ret 0)) false (fun _ =>
  NewEffect (SignalGet a (fun v => if v =? 1 then Ret 0 else Throw)) false
    (fun _ =>
  SignalSet a 2 (Ret 0)))).

Definition pending_state : state := state_of (exec 20 pending_after_throw init).

Lemma pending_reachable : reachable pending_state.
Proof.
  apply (reach_throw 20 pending_after_throw init pending_state);
    [apply reach_init |].
  vm_compute. reflexivity.
Defined.

Example pending_state_queue :
  queue pending_state = [1%nat] /\ queueIndex pending_state = [1%nat].
Proof. by vm_compute. Qed.

Lemma C6_pending_dedup_witness :
  reachable pending_state
  /\ queue pending_state = [1%nat]
  /\ 1%nat ∈ queueIndex pending_state
  /\ addEffectTask 1 pending_state = pending_state
  /\ NoDup (queue pending_state)
  /\ (forall x, x ∈ queueIndex pending_state <-> x ∈ queue pending_state).
Proof.
  assert (Hin : 1%nat ∈ queueIndex pending_state).
  { assert (Hq : queueIndex pending_state = [1%nat]) by (vm_compute; reflexivity).
    rewrite Hq. by apply list_elem_of_singleton. }
  destruct (C6_pending_dedup pending_state 1%nat pending_reachable)
    as (Hsub & Hnd & Hix).
  split; [exact pending_reachable |]. split; [vm_compute; reflexivity |].
  split; [exact Hin |]. split; [exact (Hsub Hin) |]. split; [exact Hnd | exact Hix].
Defined.

(** Submitting is also idempotent outside reachable states. *)
Lemma addEffectTask_idem (n : node_id) (s : state) :
  addEffectTask n (addEffectTask n s) = addEffectTask n s.
Proof.
  assert (H : has_key n (queueIndex (addEffectTask n s)) = true).
  { unfold addEffectTask. destruct (has_key n (queueIndex s)) eqn:E; [done |].
    simpl. apply has_key_true.
    rewrite elem_of_app, list_elem_of_singleton. by right. }
  generalize dependent (addEffectTask n s). intros s1 H.
  unfold addEffectTask. by rewrite H.
Qed.

(** * Writing and reading a signal *)

Lemma heap_addEffectTask (n : node_id) (s : state) :
  heap (addEffectTask n s) = heap s.
Proof. unfold addEffectTask. by destruct (has_key n (queueIndex s)). Qed.

Lemma queueIndex_addEffectTask (n x : node_id) (s : state) :
  x ∈ queueIndex (addEffectTask n s) <-> x = n \/ x ∈ queueIndex s.
Proof.
  unfold addEffectTask. destruct (has_key n (queueIndex s)) eqn:E; simpl.
  - apply has_key_true in E. split; [tauto | intros [->|]; done].
  - rewrite elem_of_app, list_elem_of_singleton. tauto.
Qed.

(** The loop of [dirtyDownstream]: every node of [l] ends up dirty and in the
    index; nothing else of a node changes. *)
Lemma dirty_loop (l : list node_id) (s : state) :
  let s' := fold_left (fun st x => addEffectTask x (upd x (set_dirty true) st))
                      l s in
  (forall x, x ∈ l \/ x ∈ queueIndex s -> x ∈ queueIndex s')
  /\ (forall x nx, heap s !! x = Some nx ->
        exists nx', heap s' !! x = Some nx'
                    /\ kind nx' = kind nx /\ next nx' = next nx
                    /\ prev nx' = prev nx /\ priority nx' = priority nx
                    /\ (x ∈ l \/ dirty nx = true -> dirty nx' = true)).
Proof.
  revert s. induction l as [|p l IH]; intros s; simpl.
  - split; [intros x [H|H]; [inversion H | done] |].
    intros x nx Hx. exists nx. split_and!; try done.
    intros [H|H]; [inversion H | done].
  - set (s1 := addEffectTask p (upd p (set_dirty true) s)).
    destruct (IH s1) as [Hix Hhp]. split.
    + intros x Hx. apply Hix. unfold s1. rewrite queueIndex_addEffectTask.
      simpl. rewrite elem_of_cons in Hx. tauto.
    + intros x nx Hx.
      assert (H1 : heap s1 !! x
                   = Some (if decide (x = p) then set_dirty true nx else nx)).
      { unfold s1. rewrite heap_addEffectTask, lookup_upd, Hx.
        by case_decide. }
      destruct (Hhp _ _ H1) as (nx' & Hl & Hk & Hn & Hp & Hpr & Hd).
      exists nx'. split; [done |].
      destruct (decide (x = p)) as [->|Hne]; simpl in *.
      * split_and!; try done. intros _. apply Hd. by right.
      * split_and!; try done. rewrite elem_of_cons. intros [[?|?]|?]; [done | |];
          apply Hd; tauto.
Qed.

(** C7.  A write outside batch mode stores [v] whatever the old value was,
    marks every downstream node dirty and queues it, and then drains. *)
Theorem C7_write_always_propagates (fuel : nat) (s : state) (this : node_id)
  (v v0 : Z) (n : node)
  (Hb : batchMode s = false)
  (Hn : heap s !! this = Some n) (Hk : kind n = KSignal v0)
  (Hs : sched_ok s) :
  let s2 := dirtyDownstream this (upd this (set_value v) s) in
  signal_set (autoRun fuel) this v s = autoRun fuel s2
  /\ signal_peek this s2 = Normal s2 v
  /\ (forall x, x ∈ next n ->
        x ∈ queue s2 /\ x ∈ queueIndex s2
        /\ forall nx, heap s !! x = Some nx ->
             exists nx', heap s2 !! x = Some nx' /\ dirty nx' = true).
Proof.
  intros s2.
  set (s1 := upd this (set_value v) s).
  assert (H1 : heap s1 !! this = Some (set_value v n)).
  { unfold s1. by rewrite lookup_upd, decide_True, Hn. }
  assert (Hnx : next (set_value v n) = next n) by apply set_value_edges.
  assert (Hk1 : kind (set_value v n) = KSignal v).
  { unfold set_value. by rewrite Hk. }
  assert (Hs2 : sched_ok s2) by (by apply dirtyDownstream_sched_ok).
  assert (Hdd : s2 = fold_left
                       (fun st x => addEffectTask x (upd x (set_dirty true) st))
                       (next n) s1).
  { unfold s2, dirtyDownstream. fold s1. by rewrite H1, Hnx. }
  destruct (dirty_loop (next n) s1) as [Hix Hhp]. rewrite <- Hdd in Hix, Hhp.
  split_and!.
  - unfold signal_set. rewrite Hn. destruct n as [? ? ? ? k]. simpl in Hk.
    subst k. fold s1. simpl. rewrite Hb. done.
  - unfold signal_peek.
    destruct (Hhp _ _ H1) as (n' & -> & Hk' & _). rewrite Hk1 in Hk'.
    destruct n' as [? ? ? ? k']. simpl in Hk'. by subst k'.
  - intros x Hx.
    assert (Hxi : x ∈ queueIndex s2) by (apply Hix; by left).
    split_and!; [by apply Hs2 | done |].
    intros nx Hnx'.
    assert (Hx1 : exists nx1, heap s1 !! x = Some nx1).
    { unfold s1. rewrite lookup_upd, Hnx'. case_decide; eauto. }
    destruct Hx1 as [nx1 Hx1].
    destruct (Hhp _ _ Hx1) as (nx' & Hl & _ & _ & _ & _ & Hd).
    exists nx'. split; [done |]. apply Hd. by left.
Qed.

Example C7_same_value_still_queues :
  signal_peek 0 demo_state = Normal demo_state 1
  /\ queue (dirtyDownstream 0 (upd 0 (set_value 1) demo_state)) = [3; 2]%nat.
Proof. by vm_compute. Qed.

Lemma C7_write_always_propagates_witness :
  batchMode demo_state = false
  /\ sched_ok demo_state
  /\ signal_set (autoRun 11) 0 1 demo_state
     = autoRun 11 (dirtyDownstream 0 (upd 0 (set_value 1) demo_state)).
Proof.
  assert (Hs : sched_ok demo_state) by exact (reachable_sched_ok _ demo_reachable).
  split; [reflexivity |]. split; [exact Hs |].
  exact (proj1 (C7_write_always_propagates 11 demo_state 0 1 1
                  (mkNode 1 false [] [3; 2]%nat (KSignal 1))
                  eq_refl eq_refl eq_refl Hs)).
Defined.

(** C8.  With an empty evaluation stack the getter of a Signal is [peek]: the
    same value, and the state (every node, the scheduler) is unchanged. *)
Theorem C8_untracked_read (s : state) (this : node_id)
  (Hempty : effectStack s = []) :
  signal_get this s = signal_peek this s
  /\ (forall s' v, signal_get this s = Normal s' v -> s' = s)
  /\ collect this s = s.
Proof.
  assert (Hc : collect this s = s) by (unfold collect; by rewrite Hempty).
  unfold signal_get, signal_peek. rewrite Hc. split_and!; try done.
  intros s' v.
  destruct (heap s !! this) as [[? ? ? ? [?|? ?|? ? ? ?]]|]; try done.
  by intros [= <- _].
Qed.

Lemma C8_untracked_read_witness :
  effectStack demo_state = []
  /\ signal_get 0 demo_state = signal_peek 0 demo_state.
Proof.
  split; [reflexivity |].
  exact (proj1 (C8_untracked_read demo_state 0%nat eq_refl)).
Defined.

(** * The evaluation stack *)

Lemma dirtyDownstream_effectStack (this : node_id) (s : state) :
  effectStack (dirtyDownstream this s) = effectStack s.
Proof. apply dirtyDownstream_same_graph. Qed.

Lemma prim_stack_prefix (s s' : state) :
  prim s s' -> effectStack s `prefix_of` effectStack s'.
Proof.
  destruct 1 as [this s|this s|this s|this s|this v s|this d s|this r s|this s
                |e s|b s|q s|n s s' Hd|n s Hp Hn|this s Hlt]; try done.
  - by destruct (heap_only_fields _ _ (heap_only_collect this s))
      as (_ & _ & -> & _).
  - by destruct (heap_only_fields _ _ (heap_only_release this s))
      as (_ & _ & -> & _).
  - by destruct (heap_only_fields _ _ (heap_only_updatePriority this s))
      as (_ & _ & -> & _).
  - by rewrite dirtyDownstream_effectStack.
  - by destruct (dequeue_Some _ _ _ Hd) as (_ & _ & _ & -> & _).
  - simpl. by apply prefix_app_r.
Qed.

Lemma pop_stack_prefix (this : node_id) (s s' : state) :
  effectStack (addCurrentEffect this s) `prefix_of` effectStack s' ->
  effectStack s `prefix_of` effectStack (popCurrentEffect this s').
Proof.
  simpl. intros [k Hk]. unfold popCurrentEffect.
  assert (Hs : effectStack s `prefix_of` effectStack s').
  { rewrite Hk, <- app_assoc. by apply prefix_app_r. }
  destruct (last (effectStack s')) as [top|]; [| done].
  destruct (Nat.eqb top this); [| done]. simpl. rewrite Hk.
  destruct (decide (k = [])) as [->|Hne].
  - rewrite app_nil_r, removelast_last. done.
  - destruct (exists_last Hne) as (k' & y & ->).
    rewrite app_assoc, removelast_last, <- app_assoc. by apply prefix_app_r.
Qed.

(** A call never removes what was on the stack when it began. *)
Theorem exec_stack_prefix (fuel : nat) (p : prog) (s s' : state) :
  (exists r, exec fuel p s = Normal s' r) \/ exec fuel p s = Thrown s' ->
  effectStack s `prefix_of` effectStack s'.
Proof.
  intros Hex.
  pose proof (exec_autoRun_post
                (fun a b => effectStack a `prefix_of` effectStack b)) as H.
  destruct H with (fuel := fuel) as [He _].
  - done.
  - intros s1 s2 s3 H12 H23. by etrans.
  - apply prim_stack_prefix.
  - intros this a b _. apply pop_stack_prefix.
  - specialize (He p s). destruct Hex as [[r Hr]|Hr]; by rewrite Hr in He.
Qed.

Lemma release_effectStack (this : node_id) (s : state) :
  effectStack (release this s) = effectStack s.
Proof. by destruct (heap_only_fields _ _ (heap_only_release this s)) as (_ & _ & -> & _). Qed.

(** * Exceptions *)

Definition throwing_effect : prog := NewEffect Throw true (fun _ => Ret 0).
Definition throwing_computed : prog := NewComputed Throw (fun _ => Ret 0).

(** C3, as stated, fails: an effect whose body throws, run on an empty stack,
    leaves itself on the stack; so does a Computed whose derivation throws. *)
Lemma C3_stack_not_restored :
  (let s0 := state_of (exec 2 throwing_effect init) in
   effectStack s0 = []
   /\ exists s', exec 2 (EffectRun 0 (Ret 0)) s0 = Thrown s'
                 /\ effectStack s' = [0%nat])
  /\ (let s0 := state_of (exec 2 throwing_computed init) in
      effectStack s0 = []
      /\ exists s', exec 2 (ComputedGet 0 (fun _ => Ret 0)) s0 = Thrown s'
                    /\ effectStack s' = [0%nat]).
Proof.
  split; (split; [reflexivity |]); eexists; (split; [vm_compute; reflexivity |]);
    reflexivity.
Qed.

(** C3, amended.  When the body of an Effect (the derivation of a dirty
    Computed) throws, [run()] ([_ensureComputed()]) throws to its caller in
    the very state of the throw: nothing is popped, and the stack is the one
    before the evaluation followed by the failing node and whatever the body
    left above it.  [autoRun] passes the exception of a node it runs on to its
    own caller. *)
Theorem C3_throw_propagates_stack_kept (fuel : nat) (s s' : state)
  (this : node_id) (n : node) (Hn : heap s !! this = Some n) :
  (forall fn d r m, kind n = KEffect fn d r m ->
     let s2 := log (EvEffect this)
                   (release this
                      (addCurrentEffect this (upd this (set_running true) s))) in
     (exec fuel fn s2 = Thrown s' -> effect_run (exec fuel) this s = Thrown s')
     /\ (effect_run (exec fuel) this s = Thrown s' ->
         exists X, effectStack s' = effectStack s ++ this :: X))
  /\ (forall v fn, kind n = KComputed v fn -> dirty n = true ->
     let s2 := log (EvCompute this) (addCurrentEffect this (release this s)) in
     (exec fuel fn s2 = Thrown s' -> ensureComputed (exec fuel) this s = Thrown s')
     /\ (ensureComputed (exec fuel) this s = Thrown s' ->
         exists X, effectStack s' = effectStack s ++ this :: X))
  /\ (forall x s1, dequeue s = Some (x, s1) ->
     node_run (exec fuel) (autoRun fuel) x (log (EvRun x) s1) = Thrown s' ->
     autoRun (S fuel) s = Thrown s').
Proof.
  destruct n as [pr dt pv nx k]. split_and!.
  - intros fn d r m Hk s2. simpl in Hk. subst k.
    unfold effect_run. rewrite Hn. fold s2. split.
    + by intros ->.
    + destruct (exec fuel fn s2) as [s3 r3|s3| |] eqn:He; simpl; try done.
      intros [= ->].
      destruct (exec_stack_prefix fuel fn s2 s') as [k Hk]; [by right |].
      exists k. rewrite Hk. unfold s2. simpl.
      rewrite release_effectStack. simpl. by rewrite <- app_assoc.
  - intros v fn Hk Hd s2. simpl in Hk, Hd. subst k dt.
    unfold ensureComputed. rewrite Hn. fold s2. split.
    + by intros ->.
    + destruct (exec fuel fn s2) as [s3 [z|c]|s3| |] eqn:He; simpl; try done.
      intros [= ->].
      destruct (exec_stack_prefix fuel fn s2 s') as [k Hk]; [by right |].
      exists k. rewrite Hk. unfold s2. simpl.
      rewrite release_effectStack. simpl. by rewrite <- app_assoc.
  - intros x s1 Hd Hr. simpl. unfold autoRun_body. by rewrite Hd, Hr.
Qed.

Lemma C3_throw_propagates_stack_kept_witness :
  let s0 := state_of (exec 2 throwing_effect init) in
  let s' := state_of (exec 2 (EffectRun 0 (Ret 0)) s0) in
  heap s0 !! 0%nat = Some (mkNode 1 false [] [] (KEffect Throw None false true))
  /\ effect_run (exec 1) 0 s0 = Thrown s'
  /\ exists X, effectStack s' = effectStack s0 ++ 0%nat :: X.
Proof.
  intros s0 s'.
  assert (Hn : heap s0 !! 0%nat
               = Some (mkNode 1 false [] [] (KEffect Throw None false true)))
    by reflexivity.
  assert (Hr : effect_run (exec 1) 0 s0 = Thrown s') by reflexivity.
  split; [exact Hn |]. split; [exact Hr |].
  exact (proj2 (proj1 (C3_throw_propagates_stack_kept 1 s0 s' 0%nat _ Hn)
                  Throw None false true eq_refl) Hr).
Defined.

(** * Objects keep their class *)

(** The class of an object and the closure given to its constructor never
    change. *)
Definition same_class (k k' : node_kind) : Prop :=
  match k, k' with
  | KSignal _, KSignal _ => True
  | KComputed _ f, KComputed _ f' => f = f'
  | KEffect f _ _ m, KEffect f' _ _ m' => f = f' /\ m = m'
  | _, _ => False
  end.

Definition keeps (s s' : state) : Prop :=
  forall x nx, heap s !! x = Some nx ->
    exists nx', heap s' !! x = Some nx' /\ same_class (kind nx) (kind nx').

Lemma same_class_refl (k : node_kind) : same_class k k.
Proof. by destruct k. Qed.

Lemma same_class_trans (k1 k2 k3 : node_kind) :
  same_class k1 k2 -> same_class k2 k3 -> same_class k1 k3.
Proof. destruct k1, k2, k3; simpl; try done; intuition congruence. Qed.

Lemma keeps_refl (s : state) : keeps s s.
Proof. intros x nx Hx. exists nx. split; [done | apply same_class_refl]. Qed.

Lemma keeps_trans (s1 s2 s3 : state) : keeps s1 s2 -> keeps s2 s3 -> keeps s1 s3.
Proof.
  intros H12 H23 x n1 Hx.
  destruct (H12 _ _ Hx) as (n2 & Hx2 & Hc12).
  destruct (H23 _ _ Hx2) as (n3 & Hx3 & Hc23).
  exists n3. split; [done |]. by eapply same_class_trans.
Qed.

Lemma keeps_heap_eq (s s' : state) : heap s' = heap s -> keeps s s'.
Proof. intros Hh x nx Hx. exists nx. rewrite Hh. split; [done | apply same_class_refl]. Qed.

Lemma keeps_upd (this : node_id) (f : node -> node) (s : state) :
  (forall n, same_class (kind n) (kind (f n))) -> keeps s (upd this f s).
Proof.
  intros Hf x nx Hx. rewrite lookup_upd, Hx. case_decide.
  - exists (f nx). split; [reflexivity | apply Hf].
  - exists nx. split; [done | apply same_class_refl].
Qed.

Lemma keeps_upd_kind (this : node_id) (f : node -> node) (s : state) :
  (forall n, kind (f n) = kind n) -> keeps s (upd this f s).
Proof. intros Hf. apply keeps_upd. intros n. rewrite Hf. apply same_class_refl. Qed.

Lemma set_value_class (v : Z) (n : node) :
  same_class (kind n) (kind (set_value v n)).
Proof.
  unfold set_value. destruct (kind n) eqn:E; simpl; rewrite ?E; simpl; auto.
Qed.

Lemma set_destroy_class (d : option prog) (n : node) :
  same_class (kind n) (kind (set_destroy d n)).
Proof.
  unfold set_destroy. destruct (kind n) eqn:E; simpl; rewrite ?E; simpl; auto.
Qed.

Lemma set_running_class (r : bool) (n : node) :
  same_class (kind n) (kind (set_running r n)).
Proof.
  unfold set_running. destruct (kind n) eqn:E; simpl; rewrite ?E; simpl; auto.
Qed.

Lemma keeps_collect (this : node_id) (s : state) : keeps s (collect this s).
Proof.
  unfold collect. destruct (last (effectStack s)) as [cur|]; [| apply keeps_refl].
  destruct (heap s !! this) as [nd|]; [| apply keeps_refl].
  destruct (has_key _ _); [apply keeps_refl |].
  eapply keeps_trans; [| by apply keeps_upd_kind].
  eapply keeps_trans; by apply keeps_upd_kind.
Qed.

Lemma keeps_release (this : node_id) (s : state) : keeps s (release this s).
Proof.
  unfold release. destruct (heap s !! this) as [n|]; [| apply keeps_refl].
  eapply keeps_trans; [| by apply keeps_upd_kind].
  eapply keeps_trans; [| by apply keeps_upd_kind].
  apply (fold_left_preserves (keeps s)); [apply keeps_refl |].
  intros st x Hst. eapply keeps_trans; [exact Hst | by apply keeps_upd_kind].
Qed.

Lemma keeps_updatePriority (this : node_id) (s : state) :
  keeps s (updatePriority this s).
Proof.
  unfold updatePriority. destruct (heap s !! this); [| apply keeps_refl].
  by apply keeps_upd_kind.
Qed.

Lemma keeps_dirtyDownstream (this : node_id) (s : state) :
  keeps s (dirtyDownstream this s).
Proof.
  unfold dirtyDownstream. destruct (heap s !! this) as [n|]; [| apply keeps_refl].
  apply (fold_left_preserves (keeps s)); [apply keeps_refl |].
  intros st x Hst. eapply keeps_trans; [exact Hst |].
  eapply keeps_trans; [by apply (keeps_upd_kind x (set_dirty true)) |].
  apply keeps_heap_eq, heap_addEffectTask.
Qed.

Lemma prim_keeps (s s' : state) : prim s s' -> keeps s s'.
Proof.
  destruct 1 as [this s|this s|this s|this s|this v s|this d s|this r s|this s
                |e s|b s|q s|n s s' Hd|n s Hp Hn|this s Hlt];
    try (by apply keeps_heap_eq).
  - apply keeps_collect.
  - apply keeps_release.
  - apply keeps_updatePriority.
  - apply keeps_dirtyDownstream.
  - apply keeps_upd, set_value_class.
  - apply keeps_upd, set_destroy_class.
  - apply keeps_upd, set_running_class.
  - by apply keeps_upd_kind.
  - apply keeps_heap_eq. by destruct (dequeue_Some _ _ _ Hd) as (_ & _ & -> & _).
  - intros x nx Hx. exists nx. rewrite lookup_alloc, decide_False, Hx.
    + split; [done | apply same_class_refl].
    + apply lookup_lt_Some in Hx. lia.
Qed.

Lemma heap_popCurrentEffect (this : node_id) (s : state) :
  heap (popCurrentEffect this s) = heap s.
Proof.
  unfold popCurrentEffect. destruct (last (effectStack s)); [| done].
  by destruct (Nat.eqb _ _).
Qed.

Theorem exec_keeps (fuel : nat) (p : prog) (s s' : state) :
  (exists r, exec fuel p s = Normal s' r) \/ exec fuel p s = Thrown s' ->
  keeps s s'.
Proof.
  intros Hex.
  destruct (exec_autoRun_post keeps keeps_refl keeps_trans prim_keeps)
    with (fuel := fuel) as [He _].
  - intros this a b _ Hab x nx Hx. rewrite heap_popCurrentEffect. by apply Hab.
  - specialize (He p s). destruct Hex as [[r Hr]|Hr]; by rewrite Hr in He.
Qed.

(** * Stopping an effect *)

Lemma same_class_effect (fn : prog) (d : option prog) (r m : bool)
  (k : node_kind) :
  same_class (KEffect fn d r m) k -> exists d' r', k = KEffect fn d' r' m.
Proof. destruct k; simpl; try done. intros [-> ->]. eauto. Qed.

Lemma effect_stop_not_running (exec' : prog -> state -> outcome retval)
  (this : node_id) (s : state) (n : node) (fn : prog) (d : option prog)
  (m : bool) :
  heap s !! this = Some n -> kind n = KEffect fn d false m ->
  effect_stop exec' this s = Normal s tt.
Proof.
  intros Hn Hk. unfold effect_stop. rewrite Hn.
  destruct n as [? ? ? ? k]. simpl in Hk. by subst k.
Qed.

Lemma effect_after_stop (this : node_id) (s1 : state) (n1 : node) (fn : prog)
  (d : option prog) (r m : bool) :
  heap s1 !! this = Some n1 -> kind n1 = KEffect fn d r m ->
  exists n',
    heap (upd this (set_running false)
            (upd this (set_destroy None) (release this s1))) !! this = Some n'
    /\ kind n' = KEffect fn None false m.
Proof.
  intros Hn Hk.
  destruct (keeps_release this s1 _ _ Hn) as (n2 & Hn2 & Hc).
  rewrite Hk in Hc. apply same_class_effect in Hc as (d2 & r2 & Hk2).
  exists (set_running false (set_destroy None n2)). split.
  - by rewrite !lookup_upd, !decide_True, Hn2.
  - unfold set_running, set_destroy. rewrite Hk2. simpl. done.
Qed.

Definition cleanup_throws : prog :=
  NewEffect (RetFn Throw) false (fun e =>
  Try (EffectStop e (Ret 0)) (fun _ =>
  Try (EffectStop e (Ret 0)) (fun _ => Ret 0))).

(** The cleanup of effect 1 stops the effect it belongs to, once. *)
Definition cleanup_reenters : prog :=
  NewSignal 0 (fun flag =>
  NewEffect
    (RetFn (SignalPeek flag (fun f =>
              if f =? 0 then SignalSet flag 1 (EffectStop 1 (Ret 0))
              else Ret 0)))
    false (fun e =>
  EffectStop e (Ret 0))).

(** C9, as stated, fails: one [run()] of an effect, and its cleanup is invoked
    twice: by two calls of [stop()] when the cleanup throws, and by a single
    call when the cleanup itself calls [stop()]. *)
Lemma C9_cleanup_invoked_twice :
  (exists s', exec 10 cleanup_throws init = Normal s' (RNum 0)
              /\ trace s' = [EvEffect 0; EvCleanup 0; EvCleanup 0])
  /\ (exists s', exec 10 cleanup_reenters init = Normal s' (RNum 0)
                 /\ trace s' = [EvEffect 1; EvCleanup 1; EvCleanup 1]).
Proof.
  split; eexists; (split; [vm_compute; reflexivity | reflexivity]).
Qed.

Lemma count_event_snoc (e e' : event) (t : list event) :
  count_event e (t ++ [e'])
  = (count_event e t + (if event_eqb e e' then 1 else 0))%nat.
Proof.
  unfold count_event. rewrite List.filter_app, length_app. simpl.
  by destruct (event_eqb e e').
Qed.

Lemma event_eqb_refl (e : event) : event_eqb e e = true.
Proof. destruct e; simpl; apply Nat.eqb_refl. Qed.

Lemma trace_after_stop (this : node_id) (s1 : state) :
  trace (upd this (set_running false)
           (upd this (set_destroy None) (release this s1))) = trace s1.
Proof.
  simpl. by destruct (heap_only_fields _ _ (heap_only_release this s1))
    as (_ & _ & _ & _ & _ & ->).
Qed.

(** C9, amended.  [stop()] on an Effect whose [running] flag is false changes
    nothing and invokes no closure.  [stop()] on a running Effect invokes the
    stored cleanup once, and when the cleanup returns it releases the
    upstream and clears the flag and the cleanup; if the cleanup did not
    itself call [stop()] on the effect, that is one invocation.  A [stop()]
    that returns leaves the flag false, so the next [stop()] changes nothing
    and invokes no cleanup: the cleanup stored by a [run()] is then invoked at
    most once, and [stop(); stop()] is [stop()]. *)
Theorem C9_stop_idempotent (fuel : nat) (s : state) (this : node_id)
  (n : node) (fn : prog) (d : option prog) (r m : bool)
  (Hn : heap s !! this = Some n) (Hk : kind n = KEffect fn d r m) :
  (r = false ->
   forall exec', effect_stop exec' this s = Normal s tt)
  /\ (forall s' u, effect_stop (exec fuel) this s = Normal s' u ->
        (exists n' d', heap s' !! this = Some n'
                       /\ kind n' = KEffect fn d' false m)
        /\ forall exec', effect_stop exec' this s' = Normal s' tt)
  /\ (do (s1, _) <- effect_stop (exec fuel) this s;
      effect_stop (exec fuel) this s1)
     = effect_stop (exec fuel) this s
  /\ (r = true -> forall c s1 r1,
        d = Some c ->
        exec fuel c (log (EvCleanup this) s) = Normal s1 r1 ->
        let s' := upd this (set_running false)
                    (upd this (set_destroy None) (release this s1)) in
        effect_stop (exec fuel) this s = Normal s' tt
        /\ (count_event (EvCleanup this) (trace s1)
            = count_event (EvCleanup this) (trace (log (EvCleanup this) s)) ->
            count_event (EvCleanup this) (trace s')
            = S (count_event (EvCleanup this) (trace s)))
        /\ forall exec' s'' u,
             effect_stop exec' this s' = Normal s'' u -> trace s'' = trace s')
  /\ (r = true -> d = None ->
      effect_stop (exec fuel) this s
      = Normal (upd this (set_running false)
                  (upd this (set_destroy None) (release this s))) tt
      /\ trace (upd this (set_running false)
                  (upd this (set_destroy None) (release this s))) = trace s).
Proof.
  assert (H2 : forall s' u, effect_stop (exec fuel) this s = Normal s' u ->
        (exists n' d', heap s' !! this = Some n'
                       /\ kind n' = KEffect fn d' false m)
        /\ forall exec', effect_stop exec' this s' = Normal s' tt).
  { intros s' u Hstop.
    assert (He : exists n' d', heap s' !! this = Some n'
                               /\ kind n' = KEffect fn d' false m).
    { destruct r.
      - unfold effect_stop in Hstop. rewrite Hn in Hstop.
        destruct n as [? ? ? ? k]. simpl in Hk. subst k.
        assert (Hc : exists s1 n1 d1 r1,
                   heap s1 !! this = Some n1 /\ kind n1 = KEffect fn d1 r1 m
                   /\ s' = upd this (set_running false)
                             (upd this (set_destroy None) (release this s1))).
        { destruct d as [c|]; simpl in Hstop.
          - destruct (exec fuel c (log (EvCleanup this) s)) as [s1 r1|?| |] eqn:Hc;
              simpl in Hstop; try done.
            injection Hstop as <- _.
            destruct (exec_keeps fuel c _ s1 (or_introl (ex_intro _ r1 Hc))
                        this _ Hn) as (n1 & Hn1 & Hcl).
            apply same_class_effect in Hcl as (d1 & r1' & Hk1).
            by exists s1, n1, d1, r1'.
          - injection Hstop as <- _. eexists s, _, None, true. by split_and!. }
        destruct Hc as (s1 & n1 & d1 & r1 & Hn1 & Hk1 & ->).
        destruct (effect_after_stop this s1 n1 fn d1 r1 m Hn1 Hk1) as (n' & ? & ?).
        by exists n', None.
      - rewrite (effect_stop_not_running _ _ _ _ _ _ _ Hn Hk) in Hstop.
        injection Hstop as <- _. by exists n, d. }
    split; [exact He |].
    destruct He as (n' & d' & Hn' & Hk'). intros exec'.
    by eapply effect_stop_not_running. }
  split_and!; [| exact H2 | | |].
  - intros -> exec'. by eapply effect_stop_not_running.
  - destruct (effect_stop (exec fuel) this s) as [s' u|?| |] eqn:E; simpl; try done.
    destruct u. apply (H2 s' tt eq_refl).
  - intros -> c s1 r1 -> Hc s'.
    assert (Hstop : effect_stop (exec fuel) this s = Normal s' tt).
    { unfold effect_stop. rewrite Hn. destruct n as [? ? ? ? k].
      simpl in Hk. subst k. by rewrite Hc. }
    split_and!; [exact Hstop | |].
    + intros Hcount. unfold s'. rewrite trace_after_stop, Hcount. simpl.
      rewrite count_event_snoc, event_eqb_refl. lia.
    + intros exec' s'' u Hs''.
      destruct (H2 s' tt Hstop) as [_ Hno]. rewrite Hno in Hs''.
      by injection Hs'' as <- _.
  - intros -> ->. split; [| apply trace_after_stop].
    unfold effect_stop. rewrite Hn. destruct n as [? ? ? ? k].
    simpl in Hk. by subst k.
Qed.

Lemma C9_stop_idempotent_witness :
  let p := NewEffect (RetFn (Ret 0)) false (fun _ => Ret 0) in
  let s := state_of (exec 5 p init) in
  let s' := upd 0 (set_running false)
              (upd 0 (set_destroy None) (release 0 (log (EvCleanup 0) s))) in
  heap s !! 0%nat
  = Some (mkNode 0 false [] [] (KEffect (RetFn (Ret 0)) (Some (Ret 0)) true false))
  /\ effect_stop (exec 5) 0 s = Normal s' tt
  /\ count_event (EvCleanup 0) (trace s) = 0%nat
  /\ count_event (EvCleanup 0) (trace s') = 1%nat
  /\ effect_stop (exec 5) 0 s' = Normal s' tt.
Proof.
  intros p s s'.
  assert (Hn : heap s !! 0%nat
               = Some (mkNode 0 false [] []
                              (KEffect (RetFn (Ret 0)) (Some (Ret 0)) true false)))
    by (vm_compute; reflexivity).
  assert (Hc : exec 5 (Ret 0) (log (EvCleanup 0) s)
               = Normal (log (EvCleanup 0) s) (RNum 0)) by reflexivity.
  assert (H0 : count_event (EvCleanup 0) (trace s) = 0%nat)
    by (vm_compute; reflexivity).
  destruct (C9_stop_idempotent 5 s 0%nat _ _ _ _ _ Hn eq_refl)
    as (_ & Hnext & _ & Hone & _).
  destruct (Hone eq_refl (Ret 0) (log (EvCleanup 0) s) (RNum 0) eq_refl Hc)
    as (Hstop & Hcount & _).
  split; [exact Hn |]. split; [exact Hstop |]. split; [exact H0 |].
  split; [| exact (proj2 (Hnext _ tt Hstop) (exec 5))].
  pose proof (Hcount eq_refl) as H1. rewrite H0 in H1. exact H1.
Defined.

(** * Reading a Computed *)

Definition dirty_of (s : state) (x : node_id) : option bool :=
  dirty <$> heap s !! x.

Definition read_twice : prog :=
  NewSignal 1 (fun s =>
  NewComputed (SignalGet s (fun v => Ret (v + 1))) (fun c =>
  ComputedGet c (fun _ =>
  ComputedGet c (fun _ => Ret 0)))).

(** [_ensureComputed] leaves the dirty flag as the derivation left it: none of
    its own steps clears it. *)
Lemma ensureComputed_keeps_dirty (exec' : prog -> state -> outcome retval)
  (this : node_id) (s s3 : state) (n : node) (old : option Z) (fn : prog)
  (v : Z) :
  heap s !! this = Some n -> kind n = KComputed old fn -> dirty n = true ->
  exec' fn (log (EvCompute this) (addCurrentEffect this (release this s)))
  = Normal s3 (RNum v) ->
  exists s', ensureComputed exec' this s = Normal s' tt
             /\ dirty_of s' this = dirty_of s3 this.
Proof.
  intros Hn Hk Hd He. unfold ensureComputed. rewrite Hn.
  destruct n as [? dt ? ? k]. simpl in Hk, Hd. subst k dt. rewrite He. simpl.
  eexists. split; [reflexivity |]. unfold dirty_of.
  set (s4 := upd this (set_value v) s3).
  assert (H4 : dirty <$> heap s4 !! this = dirty <$> heap s3 !! this).
  { unfold s4. rewrite lookup_upd, decide_True by done.
    destruct (heap s3 !! this) as [n3|]; [| done]. simpl.
    unfold set_value. by destruct (kind n3). }
  rewrite <- H4, <- (heap_popCurrentEffect this s4).
  set (s5 := popCurrentEffect this s4).
  unfold updatePriority. destruct (heap s5 !! this) as [n5|] eqn:E5.
  - rewrite lookup_upd, decide_True, E5 by done. done.
  - by rewrite E5.
Qed.

(** C1 fails on the code.  A Computed is created dirty and only [run()], which
    the scheduler calls, clears the flag; read twice before any write, the
    derivation is invoked twice and the flag is still set. *)
Theorem C1_read_twice_recomputes :
  exists s', exec 10 read_twice init = Normal s' (RNum 0)
             /\ trace s' = [EvCompute 1; EvCompute 1]
             /\ count_event (EvCompute 1) (trace s') = 2%nat
             /\ dirty_of s' 1 = Some true
             /\ queue s' = [].
Proof. eexists. split; [vm_compute; reflexivity |]. by vm_compute. Qed.

(** * Batches *)

Definition batch_setup : prog :=
  NewSignal 1 (fun a =>
  NewSignal 1 (fun b =>
  NewEffect (SignalGet a (fun _ => Ret 0)) false (fun _ =>
  Batch (SignalSet a 2 (Ret 0)) (Ret 0)))).

Definition after_first_batch : state := state_of (exec 10 batch_setup init).

Definition second_batch : prog := Batch (SignalSet 1 2 (Ret 0)) (Ret 0).

(** C2 fails on the code.  [Signal.batchQueue] is never emptied: after a batch
    that wrote signal 0 has returned, signal 0 is still in it, and a later
    batch that writes only signal 1 marks the downstream of signal 0 again
    and runs the effect that reads it. *)
Theorem C2_batch_queue_kept :
  exec 10 batch_setup init = Normal after_first_batch (RNum 0)
  /\ batchMode after_first_batch = false
  /\ batchQueue after_first_batch = [0%nat]
  /\ trace after_first_batch = [EvEffect 2; EvRun 2; EvEffect 2]
  /\ nexts after_first_batch 1 = []
  /\ exists s', exec 10 second_batch after_first_batch = Normal s' (RNum 0)
                /\ batchQueue s' = [0; 1]%nat
                /\ trace s' = trace after_first_batch ++ [EvRun 2; EvEffect 2].
Proof.
  split; [vm_compute; reflexivity |]. split_and!; try reflexivity.
  eexists. split; [vm_compute; reflexivity |]. by vm_compute.
Qed.

(** * The earlier version (src/unnamed/part_000)

    The earlier file has no batch mode; [notifyAll] marks the downstream and
    drains in one method, and the Signal setter and [Computed.run] call it.
    [Schedule.run] and [Schedule.add] have the bodies of [autoRun] and
    [addEffectTask]; every other method is textually the same as in
    src/index.ts and is shared with the model above.  The earlier engine
    runs on the same [state]; it never looks at the two batch fields. *)

Module Old.

(** Schedule.add *)
Definition add (n : node_id) (s : state) : state :=
  if has_key n (queueIndex s) then s
  else set_queue (queue s ++ [n]) (set_queueIndex (queueIndex s ++ [n]) s).

Section Methods.
Variable exec' : prog -> state -> outcome retval.
Variable run' : state -> outcome unit.

(** EffectNode.notifyAll *)
Definition notifyAll (this : node_id) (s : state) : outcome unit :=
  match heap s !! this with
  | Some n =>
      run' (fold_left (fun st x => add x (upd x (set_dirty true) st)) (next n) s)
  | None => run' s
  end.

(** Signal.value (setter) *)
Definition signal_set (this : node_id) (v : Z) (s : state) : outcome unit :=
  match heap s !! this with
  | Some (mkNode _ _ _ _ (KSignal _)) =>
      notifyAll this (upd this (set_value v) s)
  | _ => Wrong
  end.

(** Computed.run *)
Definition computed_run (this : node_id) (s : state) : outcome unit :=
  do (s1, _) <- ensureComputed exec' this s;
  notifyAll this (base_run this s1).

Definition node_run (this : node_id) (s : state) : outcome unit :=
  match heap s !! this with
  | Some (mkNode _ _ _ _ (KSignal _)) => Normal (base_run this s) tt
  | Some (mkNode _ _ _ _ (KComputed _ _)) => computed_run this s
  | Some (mkNode _ _ _ _ (KEffect _ _ _ _)) => effect_run exec' this s
  | None => Wrong
  end.

(** Schedule.run *)
Definition run_body (s : state) : outcome unit :=
  let q := sort (heap s) (queue s) in
  match last q with
  | None => Normal s tt
  | Some n =>
      let s1 := set_queue (removelast q) s in
      let s2 := set_queueIndex (del_key n (queueIndex s1)) s1 in
      do (s3, _) <- node_run n (log (EvRun n) s2);
      run' s3
  end.

(** A program of the earlier API; [Signal.batch] does not exist there. *)
Definition exec_body (p : prog) (s : state) : outcome retval :=
  match p with
  | Ret v => Normal s (RNum v)
  | RetFn c => Normal s (RFun c)
  | Throw => Thrown s
  | SignalGet x k => do (s1, v) <- signal_get x s; exec' (k v) s1
  | SignalPeek x k => do (s1, v) <- signal_peek x s; exec' (k v) s1
  | SignalSet x v k => do (s1, _) <- signal_set x v s; exec' k s1
  | ComputedGet c k => do (s1, v) <- computed_get exec' c s; exec' (k v) s1
  | ComputedPeek c k => do (s1, v) <- computed_peek c s; exec' (k v) s1
  | EffectRun e k => do (s1, _) <- effect_run exec' e s; exec' k s1
  | EffectStop e k => do (s1, _) <- effect_stop exec' e s; exec' k s1
  | Batch _ _ => Wrong
  | NewSignal v k => let (x, s1) := new_signal v s in exec' (k x) s1
  | NewComputed fn k => let (c, s1) := new_computed fn s in exec' (k c) s1
  | NewEffect fn m k => do (s1, e) <- new_effect exec' fn m s; exec' (k e) s1
  | Try b k =>
      match exec' b s with
      | Normal s1 _ => exec' (k true) s1
      | Thrown s1 => exec' (k false) s1
      | Diverge => Diverge
      | Wrong => Wrong
      end
  end.
End Methods.

Fixpoint exec (fuel : nat) (p : prog) (s : state) {struct fuel}
  : outcome retval :=
  match fuel with
  | O => Diverge
  | S f => exec_body (exec f) (run f) p s
  end
with run (fuel : nat) (s : state) {struct fuel} : outcome unit :=
  match fuel with
  | O => Diverge
  | S f => run_body (exec f) (run f) s
  end.

End Old.

(** Programs that do not call [Signal.batch]. *)
Fixpoint batch_free (p : prog) : Prop :=
  match p with
  | Ret _ | Throw => True
  | RetFn c => batch_free c
  | SignalGet _ k | SignalPeek _ k | ComputedGet _ k => forall v, batch_free (k v)
  | ComputedPeek _ k => forall v, batch_free (k v)
  | SignalSet _ _ k | EffectRun _ k | EffectStop _ k => batch_free k
  | Batch _ _ => False
  | NewSignal _ k => forall x, batch_free (k x)
  | NewComputed fn k => batch_free fn /\ forall x, batch_free (k x)
  | NewEffect fn _ k => batch_free fn /\ forall x, batch_free (k x)
  | Try b k => batch_free b /\ forall ok, batch_free (k ok)
  end.

Definition ret_batch_free (r : retval) : Prop :=
  match r with
  | RNum _ => True
  | RFun c => batch_free c
  end.

Definition kind_batch_free (k : node_kind) : Prop :=
  match k with
  | KSignal _ => True
  | KComputed _ fn => batch_free fn
  | KEffect fn d _ _ =>
      batch_free fn /\ match d with Some c => batch_free c | None => True end
  end.

(** A state of the common API: batch mode is off and no stored closure calls
    [Signal.batch]. *)
Definition no_batch (s : state) : Prop :=
  batchMode s = false
  /\ forall x nx, heap s !! x = Some nx -> kind_batch_free (kind nx).

(** Transitions that change neither the batch flag nor the class, value or
    closures of an object. *)
Definition same_kinds (s s' : state) : Prop :=
  batchMode s' = batchMode s
  /\ forall x, kind <$> heap s' !! x = kind <$> heap s !! x.

Lemma same_kinds_refl (s : state) : same_kinds s s.
Proof. done. Qed.

Lemma same_kinds_trans (s1 s2 s3 : state) :
  same_kinds s1 s2 -> same_kinds s2 s3 -> same_kinds s1 s3.
Proof.
  intros [Hb Hk] [Hb' Hk']. split; [congruence |].
  intros x. by rewrite Hk', Hk.
Qed.

Lemma same_kinds_upd (this : node_id) (f : node -> node) (s : state) :
  (forall n, kind (f n) = kind n) -> same_kinds s (upd this f s).
Proof.
  intros Hf. split; [done |]. intros x. rewrite lookup_upd.
  case_decide; [| done]. destruct (heap s !! x); simpl; [| done].
  by rewrite Hf.
Qed.

Lemma same_kinds_collect (this : node_id) (s : state) :
  same_kinds s (collect this s).
Proof.
  unfold collect. destruct (last (effectStack s)) as [cur|]; [| done].
  destruct (heap s !! this) as [nd|]; [| done].
  destruct (has_key _ _); [done |].
  eapply same_kinds_trans; [| by apply same_kinds_upd].
  eapply same_kinds_trans; by apply same_kinds_upd.
Qed.

Lemma same_kinds_release (this : node_id) (s : state) :
  same_kinds s (release this s).
Proof.
  unfold release. destruct (heap s !! this) as [n|]; [| done].
  eapply same_kinds_trans; [| by apply same_kinds_upd].
  eapply same_kinds_trans; [| by apply same_kinds_upd].
  apply (fold_left_preserves (same_kinds s)); [done |].
  intros st x Hst. eapply same_kinds_trans; [exact Hst | by apply same_kinds_upd].
Qed.

Lemma same_kinds_updatePriority (this : node_id) (s : state) :
  same_kinds s (updatePriority this s).
Proof.
  unfold updatePriority. destruct (heap s !! this); [| done].
  by apply same_kinds_upd.
Qed.

Lemma same_kinds_dirtyDownstream (this : node_id) (s : state) :
  same_kinds s (dirtyDownstream this s).
Proof.
  unfold dirtyDownstream. destruct (heap s !! this) as [n|]; [| done].
  apply (fold_left_preserves (same_kinds s)); [done |].
  intros st x Hst. eapply same_kinds_trans; [exact Hst |].
  eapply same_kinds_trans; [by apply (same_kinds_upd x (set_dirty true)) |].
  unfold addEffectTask. by destruct (has_key _ _).
Qed.

Lemma same_kinds_pop (this : node_id) (s : state) :
  same_kinds s (popCurrentEffect this s).
Proof.
  unfold popCurrentEffect. destruct (last (effectStack s)); [| done].
  by destruct (Nat.eqb _ _).
Qed.

Lemma no_batch_same_kinds (s s' : state) :
  same_kinds s s' -> no_batch s -> no_batch s'.
Proof.
  intros [Hb Hk] [Hm Hh]. split; [congruence |].
  intros x nx Hx. specialize (Hk x). rewrite Hx in Hk.
  destruct (heap s !! x) as [n0|] eqn:E; [| done].
  simpl in Hk. injection Hk as Hk. rewrite Hk. by eapply Hh.
Qed.

Lemma no_batch_upd (this : node_id) (f : node -> node) (s : state) :
  (forall n, kind_batch_free (kind n) -> kind_batch_free (kind (f n))) ->
  no_batch s -> no_batch (upd this f s).
Proof.
  intros Hf [Hm Hh]. split; [done |]. intros x nx. rewrite lookup_upd.
  case_decide; [| apply Hh].
  destruct (heap s !! x) as [n0|] eqn:E; [| done].
  simpl. intros [= <-]. by eapply Hf, Hh.
Qed.

Lemma no_batch_collect this s : no_batch s -> no_batch (collect this s).
Proof. apply no_batch_same_kinds, same_kinds_collect. Qed.

Lemma no_batch_release this s : no_batch s -> no_batch (release this s).
Proof. apply no_batch_same_kinds, same_kinds_release. Qed.

Lemma no_batch_updatePriority this s :
  no_batch s -> no_batch (updatePriority this s).
Proof. apply no_batch_same_kinds, same_kinds_updatePriority. Qed.

Lemma no_batch_dirtyDownstream this s :
  no_batch s -> no_batch (dirtyDownstream this s).
Proof. apply no_batch_same_kinds, same_kinds_dirtyDownstream. Qed.

Lemma no_batch_pop this s : no_batch s -> no_batch (popCurrentEffect this s).
Proof. apply no_batch_same_kinds, same_kinds_pop. Qed.

Lemma no_batch_push this s : no_batch s -> no_batch (addCurrentEffect this s).
Proof. done. Qed.

Lemma no_batch_log e s : no_batch s -> no_batch (log e s).
Proof. done. Qed.

Lemma no_batch_base_run this s : no_batch s -> no_batch (base_run this s).
Proof. by apply no_batch_same_kinds, same_kinds_upd. Qed.

Lemma no_batch_set_value this v s :
  no_batch s -> no_batch (upd this (set_value v) s).
Proof.
  apply no_batch_upd. intros n. unfold set_value.
  destruct (kind n) eqn:E; simpl; rewrite ?E; done.
Qed.

Lemma no_batch_set_running this r s :
  no_batch s -> no_batch (upd this (set_running r) s).
Proof.
  apply no_batch_upd. intros n. unfold set_running.
  destruct (kind n) eqn:E; simpl; rewrite ?E; done.
Qed.

Lemma no_batch_set_destroy this d s :
  match d with Some c => batch_free c | None => True end ->
  no_batch s -> no_batch (upd this (set_destroy d) s).
Proof.
  intros Hd. apply no_batch_upd. intros n. unfold set_destroy.
  destruct (kind n) eqn:E; simpl; rewrite ?E; try done.
  intros [? _]. done.
Qed.

Lemma no_batch_alloc n s :
  kind_batch_free (kind n) -> no_batch s -> no_batch (alloc n s).2.
Proof.
  intros Hn [Hm Hh]. split; [done |]. intros x nx. rewrite lookup_alloc.
  case_decide; [by intros [= <-] | apply Hh].
Qed.

Lemma no_batch_dequeue s n s' :
  dequeue s = Some (n, s') -> no_batch s -> no_batch s'.
Proof.
  intros (_ & _ & Hh & _ & Hb & _)%dequeue_Some [Hm Hk].
  split; [congruence |]. by rewrite Hh.
Qed.

Create HintDb nb.
#[local] Hint Resolve no_batch_collect no_batch_release no_batch_updatePriority
  no_batch_dirtyDownstream no_batch_pop no_batch_push no_batch_log
  no_batch_base_run no_batch_set_value no_batch_set_running
  no_batch_set_destroy no_batch_alloc : nb.

Lemma no_batch_closure (s : state) (x : node_id) (n : node) :
  no_batch s -> heap s !! x = Some n -> kind_batch_free (kind n).
Proof. intros [_ Hh]. apply Hh. Qed.

(** * The two versions agree on the common API *)

Definition gpost {A : Type} (R : A -> Prop) (o : outcome A) : Prop :=
  match o with
  | Normal s a => no_batch s /\ R a
  | Thrown s => no_batch s
  | Diverge | Wrong => True
  end.

(** Same outcome, and the state it ends in is again one of the common API. *)
Definition agree {A : Type} (R : A -> Prop) (o o' : outcome A) : Prop :=
  o = o' /\ gpost R o.

Definition any {A : Type} (a : A) : Prop := True.

Lemma any_holds {A : Type} (a : A) : any a.
Proof. exact I. Qed.
#[local] Hint Resolve any_holds : nb.

Lemma agree_bind {A B : Type} (RA : A -> Prop) (RB : B -> Prop)
  (m m' : outcome A) (k k' : state -> A -> outcome B) :
  agree RA m m' ->
  (forall s a, no_batch s -> RA a -> agree RB (k s a) (k' s a)) ->
  agree RB (bind m k) (bind m' k').
Proof.
  intros [<- Hg] Hk. destruct m as [s a|s| |]; simpl in *; try done.
  apply Hk; tauto.
Qed.

Lemma agree_Normal {A : Type} (R : A -> Prop) (s : state) (a : A) :
  no_batch s -> R a -> agree R (Normal s a) (Normal s a).
Proof. intros Hs Ha. split; [done | split; done]. Qed.

Lemma agree_Wrong {A : Type} (R : A -> Prop) : agree R (@Wrong A) Wrong.
Proof. done. Qed.

Lemma notifyAll_dirtyDownstream (run' : state -> outcome unit)
  (this : node_id) (s : state) :
  Old.notifyAll run' this s = run' (dirtyDownstream this s).
Proof. unfold Old.notifyAll, dirtyDownstream. by destruct (heap s !! this). Qed.

Section Refinement.
Variables exec' oexec' : prog -> state -> outcome retval.
Variables autoRun' orun' : state -> outcome unit.
Hypothesis exec'_agree : forall p s,
    batch_free p -> no_batch s -> agree ret_batch_free (exec' p s) (oexec' p s).
Hypothesis autoRun'_agree : forall s,
    no_batch s -> agree any (autoRun' s) (orun' s).

Lemma signal_get_agree this s :
  no_batch s -> agree any (signal_get this s) (signal_get this s).
Proof.
  intros Hs. unfold signal_get.
  destruct (heap (collect this s) !! this) as [[? ? ? ? [v|? ?|? ? ? ?]]|];
    try apply agree_Wrong.
  apply agree_Normal; auto with nb.
Qed.

Lemma signal_peek_agree this s :
  no_batch s -> agree any (signal_peek this s) (signal_peek this s).
Proof.
  intros Hs. unfold signal_peek.
  destruct (heap s !! this) as [[? ? ? ? [v|? ?|? ? ? ?]]|];
    try apply agree_Wrong.
  by apply agree_Normal.
Qed.

Lemma computed_peek_agree this s :
  no_batch s -> agree any (computed_peek this s) (computed_peek this s).
Proof.
  intros Hs. unfold computed_peek.
  destruct (heap s !! this) as [[? ? ? ? [v|? ?|? ? ? ?]]|];
    try apply agree_Wrong.
  by apply agree_Normal.
Qed.

Lemma signal_set_agree this v s :
  no_batch s ->
  agree any (signal_set autoRun' this v s) (Old.signal_set orun' this v s).
Proof.
  intros Hs. unfold signal_set, Old.signal_set.
  destruct (heap s !! this) as [[? ? ? ? [v0|? ?|? ? ? ?]]|];
    try apply agree_Wrong.
  rewrite notifyAll_dirtyDownstream. simpl. rewrite (proj1 Hs).
  apply autoRun'_agree. auto with nb.
Qed.

Lemma ensureComputed_agree this s :
  no_batch s ->
  agree any (ensureComputed exec' this s) (ensureComputed oexec' this s).
Proof.
  intros Hs. unfold ensureComputed.
  destruct (heap s !! this) as [[? d ? ? [v|v fn|? ? ? ?]]|] eqn:Hl;
    try apply agree_Wrong.
  destruct d; [| by apply agree_Normal].
  pose proof (no_batch_closure _ _ _ Hs Hl) as Hfn. simpl in Hfn.
  apply (agree_bind ret_batch_free); [apply exec'_agree; auto with nb |].
  intros s3 [v'|c] Hs3 _; [| apply agree_Wrong].
  apply agree_Normal; auto with nb.
Qed.

Lemma computed_get_agree this s :
  no_batch s ->
  agree any (computed_get exec' this s) (computed_get oexec' this s).
Proof.
  intros Hs. unfold computed_get.
  apply (agree_bind any); [apply ensureComputed_agree; auto with nb |].
  intros s2 _ Hs2 _.
  destruct (heap s2 !! this) as [[? ? ? ? [v|[v|] ?|? ? ? ?]]|];
    try apply agree_Wrong.
  by apply agree_Normal.
Qed.

Lemma computed_run_agree this s :
  no_batch s ->
  agree any (computed_run exec' autoRun' this s)
            (Old.computed_run oexec' orun' this s).
Proof.
  intros Hs. unfold computed_run, Old.computed_run.
  apply (agree_bind any); [by apply ensureComputed_agree |].
  intros s1 _ Hs1 _. rewrite notifyAll_dirtyDownstream.
  apply autoRun'_agree. auto with nb.
Qed.

Lemma effect_run_agree this s :
  no_batch s ->
  agree any (effect_run exec' this s) (effect_run oexec' this s).
Proof.
  intros Hs. unfold effect_run.
  destruct (heap s !! this) as [[? ? ? ? [v|v fn|fn d r m]]|] eqn:Hl;
    try apply agree_Wrong.
  pose proof (no_batch_closure _ _ _ Hs Hl) as [Hfn _].
  apply (agree_bind ret_batch_free); [apply exec'_agree; auto with nb |].
  intros s3 r3 Hs3 Hr3.
  apply agree_Normal; [| done].
  apply no_batch_base_run, no_batch_updatePriority, no_batch_pop,
    no_batch_set_destroy; [by destruct r3 | done].
Qed.

Lemma effect_stop_agree this s :
  no_batch s ->
  agree any (effect_stop exec' this s) (effect_stop oexec' this s).
Proof.
  intros Hs. unfold effect_stop.
  destruct (heap s !! this) as [[? ? ? ? [v|v fn|fn d r m]]|] eqn:Hl;
    try apply agree_Wrong.
  destruct r; [| by apply agree_Normal].
  pose proof (no_batch_closure _ _ _ Hs Hl) as [_ Hd].
  apply (agree_bind any).
  - destruct d as [c|]; [| by apply agree_Normal].
    apply (agree_bind ret_batch_free); [apply exec'_agree; auto with nb |].
    intros s1 r1 Hs1 _. by apply agree_Normal.
  - intros s1 _ Hs1 _. apply agree_Normal; [| done].
    apply no_batch_set_running, no_batch_set_destroy; auto with nb.
Qed.

Lemma new_effect_agree fn m s :
  batch_free fn -> no_batch s ->
  agree any (new_effect exec' fn m s) (new_effect oexec' fn m s).
Proof.
  intros Hfn Hs. unfold new_effect.
  set (n := mkNode 1 false [] [] (KEffect fn None false m)).
  assert (Hs1 : no_batch (alloc n s).2) by (by apply no_batch_alloc).
  unfold alloc in *. simpl in *.
  destruct m; [by apply agree_Normal |].
  apply (agree_bind any); [by apply effect_run_agree |].
  intros s2 _ Hs2 _. by apply agree_Normal.
Qed.

Lemma node_run_agree this s :
  no_batch s ->
  agree any (node_run exec' autoRun' this s) (Old.node_run oexec' orun' this s).
Proof.
  intros Hs. unfold node_run, Old.node_run.
  destruct (heap s !! this) as [[? ? ? ? [v|v fn|fn d r m]]|] eqn:Hl;
    try apply agree_Wrong.
  - apply agree_Normal; auto with nb.
  - by apply computed_run_agree.
  - by apply effect_run_agree.
Qed.

Lemma autoRun_body_agree s :
  no_batch s ->
  agree any (autoRun_body exec' autoRun' s) (Old.run_body oexec' orun' s).
Proof.
  intros Hs. unfold autoRun_body, Old.run_body.
  destruct (dequeue s) as [[n s1]|] eqn:Hd.
  - pose proof (no_batch_dequeue _ _ _ Hd Hs) as Hs1.
    unfold dequeue in Hd.
    destruct (last (sort (heap s) (queue s))) as [n'|]; [| done].
    injection Hd as -> <-.
    apply (agree_bind any); [apply node_run_agree; auto with nb |].
    intros s3 _ Hs3 _. by apply autoRun'_agree.
  - unfold dequeue in Hd.
    destruct (last (sort (heap s) (queue s))) as [n'|]; [done |].
    by apply agree_Normal.
Qed.

Lemma exec_body_agree p s :
  batch_free p -> no_batch s ->
  agree ret_batch_free (exec_body exec' autoRun' p s)
                       (Old.exec_body oexec' orun' p s).
Proof.
  intros Hp Hs.
  destruct p as [v|c| |x k|x k|x v k|c k|c k|e k|e k|u k|v k|fn k|fn m k|b k];
    simpl in *.
  - by apply agree_Normal.
  - by apply agree_Normal.
  - done.
  - apply (agree_bind any); [by apply signal_get_agree |].
    intros. by apply exec'_agree.
  - apply (agree_bind any); [by apply signal_peek_agree |].
    intros. by apply exec'_agree.
  - apply (agree_bind any); [by apply signal_set_agree |].
    intros. by apply exec'_agree.
  - apply (agree_bind any); [by apply computed_get_agree |].
    intros. by apply exec'_agree.
  - apply (agree_bind any); [by apply computed_peek_agree |].
    intros. by apply exec'_agree.
  - apply (agree_bind any); [by apply effect_run_agree |].
    intros. by apply exec'_agree.
  - apply (agree_bind any); [by apply effect_stop_agree |].
    intros. by apply exec'_agree.
  - done.
  - apply exec'_agree; [done |].
    by apply (no_batch_alloc (mkNode 1 false [] [] (KSignal v))).
  - destruct Hp as [Hfn Hk]. apply exec'_agree; [done |].
    by apply (no_batch_alloc (mkNode 1 true [] [] (KComputed None fn))).
  - destruct Hp as [Hfn Hk].
    apply (agree_bind any); [by apply new_effect_agree |].
    intros. by apply exec'_agree.
  - destruct Hp as [Hb Hk].
    destruct (exec'_agree b s Hb Hs) as [<- Hg].
    destruct (exec' b s) as [s1 r1|s1| |]; simpl in Hg; try done.
    + apply exec'_agree; [apply Hk | tauto].
    + apply exec'_agree; [apply Hk | done].
Qed.
End Refinement.

Theorem exec_agrees_with_old (fuel : nat) :
  (forall p s, batch_free p -> no_batch s ->
               agree ret_batch_free (exec fuel p s) (Old.exec fuel p s))
  /\ (forall s, no_batch s -> agree any (autoRun fuel s) (Old.run fuel s)).
Proof.
  induction fuel as [|f [IHe IHa]]; [by split |].
  split; intros; simpl.
  - by apply exec_body_agree.
  - by apply autoRun_body_agree.
Qed.

Lemma init_no_batch : no_batch init.
Proof. split; [done |]. intros x nx. simpl. by rewrite lookup_nil. Qed.

Lemma demo_batch_free : batch_free demo.
Proof. simpl. intuition. Qed.

Lemma demo_no_batch : no_batch demo_state.
Proof.
  destruct (exec_agrees_with_old 20) as [He _].
  destruct (He demo init demo_batch_free init_no_batch) as [_ Hg].
  assert (Hr : exec 20 demo init = Normal demo_state (RNum 0))
    by (vm_compute; reflexivity).
  rewrite Hr in Hg. exact (proj1 Hg).
Defined.

(** C10.  In a state of the common API (batch mode off, no stored closure
    calls [Signal.batch]) a write by the setter of src/index.ts and the same
    write by the setter of the earlier version have the same outcome: the
    same final state, hence the same graph, values and queue, and the same
    trace, hence the same nodes run in the same order.  The same holds for
    every program of the common API. *)
Theorem C10_write_agrees_with_old (fuel : nat) (s : state) (this : node_id)
  (v : Z) (Hs : no_batch s) :
  signal_set (autoRun fuel) this v s = Old.signal_set (Old.run fuel) this v s
  /\ (forall p, batch_free p -> exec fuel p s = Old.exec fuel p s).
Proof.
  destruct (exec_agrees_with_old fuel) as [He Ha]. split.
  - by apply (signal_set_agree (autoRun fuel) (Old.run fuel) Ha).
  - intros p Hp. by apply He.
Qed.

Lemma C10_write_agrees_with_old_witness :
  no_batch demo_state
  /\ signal_set (autoRun 11) 0 5 demo_state
     = Old.signal_set (Old.run 11) 0 5 demo_state.
Proof.
  split; [exact demo_no_batch |].
  exact (proj1 (C10_write_agrees_with_old 11 demo_state 0%nat 5 demo_no_batch)).
Defined.

Example demo_write_old :
  trace (state_of (Old.signal_set (Old.run 11) 0 5 demo_state))
  = trace demo_state ++ [EvRun 2; EvCompute 2; EvRun 3; EvEffect 3].
Proof. by vm_compute. Qed.

(** * Further properties of the engine *)

(** ** Registering a dependency *)

(** Field updates that leave the class, the value and the dirty flag of an
    object alone. *)
Definition same_flags (s s' : state) : Prop :=
  forall x n, heap s !! x = Some n ->
    exists n', heap s' !! x = Some n' /\ kind n' = kind n /\ dirty n' = dirty n.

Lemma same_flags_refl (s : state) : same_flags s s.
Proof. intros x n Hx. by exists n. Qed.

Lemma same_flags_trans (s1 s2 s3 : state) :
  same_flags s1 s2 -> same_flags s2 s3 -> same_flags s1 s3.
Proof.
  intros H12 H23 x n Hx.
  destruct (H12 _ _ Hx) as (n2 & Hx2 & Hk2 & Hd2).
  destruct (H23 _ _ Hx2) as (n3 & Hx3 & Hk3 & Hd3).
  exists n3. split_and!; [done | congruence | congruence].
Qed.

Lemma same_flags_upd (this : node_id) (f : node -> node) (s : state) :
  (forall n, kind (f n) = kind n) -> (forall n, dirty (f n) = dirty n) ->
  same_flags s (upd this f s).
Proof.
  intros Hk Hd x n Hx. rewrite lookup_upd, Hx. case_decide.
  - exists (f n). split_and!; [reflexivity | apply Hk | apply Hd].
  - by exists n.
Qed.

Lemma same_flags_collect (this : node_id) (s : state) :
  same_flags s (collect this s).
Proof.
  unfold collect.
  destruct (last (effectStack s)) as [cur|]; [| apply same_flags_refl].
  destruct (heap s !! this) as [nd|]; [| apply same_flags_refl].
  destruct (has_key _ _); [apply same_flags_refl |].
  eapply same_flags_trans; [| by apply same_flags_upd].
  eapply same_flags_trans; by apply same_flags_upd.
Qed.

Lemma collect_effectStack (this : node_id) (s : state) :
  effectStack (collect this s) = effectStack s.
Proof.
  by destruct (heap_only_fields _ _ (heap_only_collect this s))
    as (_ & _ & -> & _).
Qed.

Lemma nexts_upd_keep (this a : node_id) (f : node -> node) (s : state) :
  (forall n, next (f n) = next n) -> nexts (upd this f s) a = nexts s a.
Proof.
  intros Hf. rewrite nexts_upd. case_decide; [subst | done].
  unfold nexts. destruct (heap s !! this); [apply Hf | done].
Qed.

Lemma prevs_upd_keep (this a : node_id) (f : node -> node) (s : state) :
  (forall n, prev (f n) = prev n) -> prevs (upd this f s) a = prevs s a.
Proof.
  intros Hf. rewrite prevs_upd. case_decide; [subst | done].
  unfold prevs. destruct (heap s !! this); [apply Hf | done].
Qed.

(** After [collect] the top of the stack is in the downstream of [this]. *)
Lemma collect_registers (this cur : node_id) (s : state) (n : node) :
  last (effectStack s) = Some cur -> heap s !! this = Some n ->
  cur ∈ nexts (collect this s) this.
Proof.
  intros Ht Hn. unfold collect. rewrite Ht, Hn.
  destruct (has_key cur (next n)) eqn:E.
  - apply has_key_true in E. unfold nexts. by rewrite Hn.
  - set (s1 := upd this (fun x => set_next (put_key cur (next x)) x) s).
    set (s2 := upd cur (fun c => set_prev (put_key this (prev c)) c) s1).
    rewrite nexts_upd_keep by done. unfold s2.
    rewrite nexts_upd_keep by done. unfold s1.
    rewrite nexts_upd, decide_True, Hn by done. simpl.
    apply elem_of_put_key. by left.
Qed.

(** X1.  Registering the same dependency again changes nothing: a second read
    of a node in the same evaluation adds no edge and no priority. *)
Theorem X1_collect_idempotent (this : node_id) (s : state) :
  collect this (collect this s) = collect this s.
Proof.
  destruct (last (effectStack s)) as [cur|] eqn:Ht.
  2: { assert (H : collect this s = s) by (unfold collect; by rewrite Ht).
       by rewrite !H. }
  destruct (heap s !! this) as [n|] eqn:Hn.
  2: { assert (H : collect this s = s) by (unfold collect; by rewrite Ht, Hn).
       by rewrite !H. }
  pose proof (collect_registers this cur s n Ht Hn) as Hreg.
  destruct (same_flags_collect this s _ _ Hn) as (n' & Hn' & _).
  pose proof (collect_effectStack this s) as Hst.
  remember (collect this s) as s' eqn:Es'. clear Es'.
  unfold nexts in Hreg. rewrite Hn' in Hreg. apply has_key_true in Hreg.
  unfold collect. by rewrite Hst, Ht, Hn', Hreg.
Qed.

(** The priority of the top of the stack after a new edge. *)
Lemma collect_priority (this cur : node_id) (s : state) (n : node) :
  last (effectStack s) = Some cur -> heap s !! this = Some n ->
  is_Some (heap s !! cur) -> cur ∉ next n ->
  prio (heap (collect this s)) cur = prio (heap s) cur + priority n.
Proof.
  intros Ht Hn [c Hc] Hnew. apply has_key_false in Hnew.
  unfold collect. rewrite Ht, Hn, Hnew.
  set (s1 := upd this (fun x => set_next (put_key cur (next x)) x) s).
  set (s2 := upd cur (fun c => set_prev (put_key this (prev c)) c) s1).
  assert (H1 : forall x nx, heap s !! x = Some nx ->
                 exists n1, heap s1 !! x = Some n1 /\ priority n1 = priority nx).
  { intros x nx Hx. unfold s1. rewrite lookup_upd, Hx.
    case_decide; eexists; (split; [reflexivity | done]). }
  assert (H2 : forall x nx, heap s !! x = Some nx ->
                 exists n2, heap s2 !! x = Some n2 /\ priority n2 = priority nx).
  { intros x nx Hx. destruct (H1 _ _ Hx) as (n1 & Hx1 & Hp1).
    unfold s2. rewrite lookup_upd, Hx1.
    case_decide; eexists; (split; [reflexivity | done]). }
  destruct (H2 _ _ Hc) as (c2 & Hc2 & Hpc2).
  destruct (H2 _ _ Hn) as (n2 & Hn2 & Hpn2).
  assert (Hps : prio (heap s2) this = priority n)
    by (unfold prio; by rewrite Hn2).
  rewrite Hps. unfold prio. rewrite lookup_upd, decide_True, Hc2, Hc by done.
  simpl. by rewrite Hpc2.
Qed.

(** The largest integer up to which sums of JS numbers holding integers are
    exact ([Number.MAX_SAFE_INTEGER]). *)
Definition max_safe_integer : Z := 2 ^ 53 - 1.

(** X2.  A read of a signal made during an evaluation returns the stored
    value, puts the evaluating node in the signal's downstream and the signal
    in its upstream, and changes nothing outside the objects; a new edge adds
    the signal's priority to the evaluating node (the two priorities being
    non-negative with a sum within the exact range of JS numbers), an
    existing edge leaves the state as it is. *)
Theorem X2_tracked_read (s : state) (this cur : node_id) (n : node) (v : Z)
  (Hg : graph_ok s) (Ht : last (effectStack s) = Some cur)
  (Hn : heap s !! this = Some n) (Hk : kind n = KSignal v) :
  let s' := collect this s in
  signal_get this s = Normal s' v
  /\ cur ∈ nexts s' this /\ this ∈ prevs s' cur
  /\ heap_only s s'
  /\ (cur ∉ next n ->
      0 <= prio (heap s) cur -> 0 <= priority n ->
      prio (heap s) cur + priority n <= max_safe_integer ->
      prio (heap s') cur = prio (heap s) cur + priority n)
  /\ (cur ∈ next n -> s' = s).
Proof.
  intros s'.
  pose proof (collect_registers this cur s n Ht Hn) as Hreg. fold s' in Hreg.
  destruct (collect_graph_ok this s Hg) as [Hm' _]. fold s' in Hm'.
  split_and!.
  - unfold signal_get. fold s'.
    destruct (same_flags_collect this s _ _ Hn) as (n' & Hn' & Hk' & _).
    fold s' in Hn'. rewrite Hn'. destruct n' as [? ? ? ? k'].
    simpl in Hk'. rewrite Hk in Hk'. by subst k'.
  - done.
  - by apply Hm'.
  - apply heap_only_collect.
  - intros Hnew _ _ _. apply collect_priority; try done.
    apply lookup_lt_is_Some, (proj2 Hg), last_elem_of, Ht.
  - intros Hold. apply has_key_true in Hold.
    unfold s', collect. by rewrite Ht, Hn, Hold.
Qed.

(** An effect is being evaluated and is about to read the second signal. *)
Definition demo_reading : state := addCurrentEffect 3 demo_state.

Lemma demo_reading_graph_ok : graph_ok demo_reading.
Proof.
  apply push_graph_ok; [vm_compute; lia |].
  exact (reachable_graph_ok _ demo_reachable).
Defined.

Lemma X2_tracked_read_witness :
  graph_ok demo_reading
  /\ last (effectStack demo_reading) = Some 3%nat
  /\ signal_get 1 demo_reading = Normal (collect 1 demo_reading) 1
  /\ prio (heap (collect 1 demo_reading)) 3 = 3.
Proof.
  split; [exact demo_reading_graph_ok |]. split; [reflexivity |].
  destruct (X2_tracked_read demo_reading 1%nat 3%nat
              (mkNode 1 false [] [] (KSignal 1)) 1
              demo_reading_graph_ok eq_refl eq_refl eq_refl)
    as (Hget & _ & _ & _ & Hp & _).
  split; [exact Hget |].
  rewrite Hp; [reflexivity | inversion 1 | by vm_compute | by vm_compute
              | by vm_compute].
Defined.

(** ** Releasing the upstream *)

Lemma upd_id (this : node_id) (f : node -> node) (s : state) (n : node) :
  heap s !! this = Some n -> f n = n -> upd this f s = s.
Proof.
  intros Hn Hf. unfold upd.
  assert (H : alter f this (heap s) = heap s).
  { apply list_eq. intros i. rewrite list_lookup_alter.
    case_decide; [subst | done]. by rewrite Hn; simpl; rewrite Hf. }
  rewrite H. by destruct s.
Qed.

(** What [release] leaves of the graph. *)
Lemma release_detaches (this : node_id) (s : state) (n : node) :
  graph_ok s -> heap s !! this = Some n ->
  let r := release this s in
  (exists n1, heap r !! this = Some (set_prev [] (set_priority 1 n1)))
  /\ (forall a, this ∉ nexts r a)
  /\ (forall a b, b <> this -> b ∈ nexts r a <-> b ∈ nexts s a)
  /\ (forall b, b <> this -> prevs r b = prevs s b).
Proof.
  intros Hg Hn r.
  pose proof (release_graph_ok this s Hg) as [Hm' _]. fold r in Hm'.
  assert (Hr : r = upd this (set_prev [])
                     (upd this (set_priority 1)
                        (fold_left
                           (fun st p => upd p (fun x => set_next (del_key this (next x)) x) st)
                           (prev n) s))).
  { unfold r, release. by rewrite Hn. }
  destruct (release_loop this (prev n) s) as (Hnx & Hpv & Hh & _).
  set (s1 := fold_left _ (prev n) s) in *.
  assert (H1 : is_Some (heap s1 !! this)) by (apply Hh; eauto).
  destruct H1 as [n1 Hn1].
  assert (Hlook : heap r !! this = Some (set_prev [] (set_priority 1 n1))).
  { rewrite Hr. by rewrite !lookup_upd, !decide_True, Hn1. }
  assert (Hpr : prevs r this = []) by (unfold prevs; by rewrite Hlook).
  split_and!.
  - by exists n1.
  - intros a Ha. apply Hm' in Ha. rewrite Hpr in Ha. inversion Ha.
  - intros a b Hb. rewrite Hr, nexts_clear, nexts_upd_keep, Hnx by done. tauto.
  - intros b Hb. rewrite Hr, prevs_clear, decide_False by done.
    by rewrite prevs_upd_keep, Hpv.
Qed.

(** X3.  [release] cuts every edge into the node, in both halves, resets its
    priority to 1, and leaves every edge between other nodes in place;
    releasing twice is releasing once. *)
Theorem X3_release_detaches (this : node_id) (s : state) (n : node)
  (Hg : graph_ok s) (Hn : heap s !! this = Some n) :
  let r := release this s in
  prevs r this = []
  /\ prio (heap r) this = 1
  /\ (forall a, this ∉ nexts r a)
  /\ (forall a b, b <> this -> b ∈ nexts r a <-> b ∈ nexts s a)
  /\ (forall b, b <> this -> prevs r b = prevs s b)
  /\ release this r = r.
Proof.
  intros r.
  destruct (release_detaches this s n Hg Hn) as ([n1 Hl] & Hnx & Hfr & Hpv).
  fold r in Hl, Hnx, Hfr, Hpv. split_and!; try done.
  - unfold prevs. by rewrite Hl.
  - unfold prio. by rewrite Hl.
  - unfold release. rewrite Hl. simpl.
    rewrite (upd_id this (set_priority 1) r _ Hl) by done.
    by rewrite (upd_id this (set_prev []) r _ Hl).
Qed.

Lemma X3_release_detaches_witness :
  graph_ok demo_state
  /\ prevs (release 3 demo_state) 3 = []
  /\ nexts (release 3 demo_state) 0 = [2%nat]
  /\ release 3 (release 3 demo_state) = release 3 demo_state.
Proof.
  assert (Hg : graph_ok demo_state) by exact (reachable_graph_ok _ demo_reachable).
  split; [exact Hg |].
  destruct (X3_release_detaches 3%nat demo_state
              (mkNode 2 false [0; 2]%nat []
                 (KEffect (demo_effect 0 2) None true false))
              Hg eq_refl)
    as (Hp & _ & _ & _ & _ & Hi).
  split; [exact Hp |]. split; [reflexivity | exact Hi].
Defined.

(** ** The evaluation stack *)

(** X4.  Pushing a node and popping it gives the state back; a pop asked by
    another node than the one on top does nothing. *)
Theorem X4_push_pop (this other : node_id) (s : state) :
  popCurrentEffect this (addCurrentEffect this s) = s
  /\ (other <> this ->
      popCurrentEffect other (addCurrentEffect this s) = addCurrentEffect this s).
Proof.
  unfold popCurrentEffect, addCurrentEffect. simpl. rewrite last_snoc. split.
  - rewrite Nat.eqb_refl. unfold set_effectStack. simpl.
    rewrite removelast_last. by destruct s.
  - intros Hne. apply Nat.eqb_neq in Hne. rewrite Nat.eqb_sym in Hne.
    by rewrite Hne.
Qed.

Lemma X4_push_pop_witness :
  3%nat <> 2%nat
  /\ popCurrentEffect 3 (addCurrentEffect 2 demo_state)
     = addCurrentEffect 2 demo_state.
Proof.
  assert (Hne : 3%nat <> 2%nat) by lia.
  split; [exact Hne |].
  exact (proj2 (X4_push_pop 2%nat 3%nat demo_state) Hne).
Defined.

(** ** Stopping detaches *)

(** X5.  When [stop()] returns on a running Effect, the effect has no
    upstream and is in no node's downstream (so no later write marks it), and
    the graph is still mirrored. *)
Theorem X5_stop_detaches (fuel : nat) (s s' : state) (this : node_id)
  (n : node) (fn : prog) (d : option prog) (m : bool) (u : unit)
  (Hg : graph_ok s) (Hn : heap s !! this = Some n)
  (Hk : kind n = KEffect fn d true m)
  (Hstop : effect_stop (exec fuel) this s = Normal s' u) :
  prevs s' this = []
  /\ (forall a, this ∉ nexts s' a)
  /\ graph_ok s'.
Proof.
  unfold effect_stop in Hstop. rewrite Hn in Hstop.
  destruct n as [? ? ? ? k]. simpl in Hk. subst k.
  assert (Hc : exists s1 n1,
             graph_ok s1 /\ heap s1 !! this = Some n1
             /\ s' = upd this (set_running false)
                       (upd this (set_destroy None) (release this s1))).
  { destruct d as [c|]; simpl in Hstop.
    - destruct (exec fuel c (log (EvCleanup this) s)) as [s1 r1|?| |] eqn:Hc;
        simpl in Hstop; try done.
      injection Hstop as <- _.
      destruct (exec_keeps fuel c _ s1 (or_introl (ex_intro _ r1 Hc))
                  this _ Hn) as (n1 & Hn1 & _).
      exists s1, n1. split_and!; try done.
      apply (exec_graph_ok fuel c (log (EvCleanup this) s)); [done | eauto].
    - injection Hstop as <- _. by eexists s, _. }
  destruct Hc as (s1 & n1 & Hg1 & Hn1 & ->).
  destruct (release_detaches this s1 n1 Hg1 Hn1) as ([n2 Hl] & Hnx & _ & _).
  assert (He : same_graph (release this s1)
                 (upd this (set_running false)
                    (upd this (set_destroy None) (release this s1)))).
  { eapply same_graph_trans; apply upd_same_graph; intros;
      try apply set_destroy_edges; apply set_running_edges. }
  destruct He as (Hp & Hx & Hlen & Hst). split_and!.
  - rewrite Hp. unfold prevs. by rewrite Hl.
  - intros a. rewrite Hx. apply Hnx.
  - apply (same_graph_ok (release this s1)); [by repeat split |].
    by apply release_graph_ok.
Qed.

Lemma X5_stop_detaches_witness :
  let s' := state_of (effect_stop (exec 5) 3 demo_state) in
  graph_ok demo_state
  /\ effect_stop (exec 5) 3 demo_state = Normal s' tt
  /\ prevs s' 3 = [] /\ nexts s' 0 = [2%nat].
Proof.
  intros s'.
  assert (Hg : graph_ok demo_state) by exact (reachable_graph_ok _ demo_reachable).
  assert (Hs : effect_stop (exec 5) 3 demo_state = Normal s' tt)
    by (vm_compute; reflexivity).
  assert (Hn : heap demo_state !! 3%nat
               = Some (mkNode 2 false [0; 2]%nat []
                         (KEffect (demo_effect 0 2) None true false)))
    by (vm_compute; reflexivity).
  split; [exact Hg |]. split; [exact Hs |].
  split; [| vm_compute; reflexivity].
  exact (proj1 (X5_stop_detaches 5 demo_state s' 3%nat _ _ _ _ tt Hg
                  Hn eq_refl Hs)).
Defined.

(** ** Writes *)

(** X6.  Outside batch mode, writing a signal that nobody reads, with nothing
    pending, returns at once: the value is stored and nothing else changes. *)
Theorem X6_write_without_readers (fuel : nat) (s : state) (this : node_id)
  (n : node) (v0 v : Z)
  (Hb : batchMode s = false) (Hn : heap s !! this = Some n)
  (Hk : kind n = KSignal v0) (Hnext : next n = []) (Hq : queue s = []) :
  signal_set (autoRun (S fuel)) this v s = Normal (upd this (set_value v) s) tt.
Proof.
  unfold signal_set. rewrite Hn. destruct n as [? ? ? nx k].
  simpl in Hk, Hnext. subst k nx. simpl. rewrite Hb.
  set (s1 := upd this (set_value v) s).
  assert (Hd : dirtyDownstream this s1 = s1).
  { unfold dirtyDownstream, s1. by rewrite lookup_upd, decide_True, Hn. }
  rewrite Hd. unfold autoRun_body.
  assert (Hdq : dequeue s1 = None) by (by apply dequeue_None).
  by rewrite Hdq.
Qed.

Lemma X6_write_without_readers_witness :
  batchMode demo_state = false /\ queue demo_state = []
  /\ signal_set (autoRun 1) 1 7 demo_state
     = Normal (upd 1 (set_value 7) demo_state) tt.
Proof.
  split; [reflexivity |]. split; [reflexivity |].
  exact (X6_write_without_readers 0 demo_state 1%nat
           (mkNode 1 false [] [] (KSignal 1)) 1 7
           eq_refl eq_refl eq_refl eq_refl eq_refl).
Defined.

Lemma put_key_idem (k : node_id) (m : list node_id) :
  put_key k (put_key k m) = put_key k m.
Proof.
  assert (H : has_key k (put_key k m) = true).
  { apply has_key_true, elem_of_put_key. by left. }
  unfold put_key at 1. by rewrite H.
Qed.

Lemma set_value_twice (v w : Z) (n : node) :
  set_value v (set_value w n) = set_value v n.
Proof. unfold set_value. destruct n as [? ? ? ? [?|? ?|? ? ? ?]]; done. Qed.

Lemma signal_set_buffered (autoRun' : state -> outcome unit) (s : state)
  (this : node_id) (n : node) (v0 v : Z) :
  batchMode s = true -> heap s !! this = Some n -> kind n = KSignal v0 ->
  signal_set autoRun' this v s
  = Normal (set_batchQueue (put_key this (batchQueue s))
              (upd this (set_value v) s)) tt.
Proof.
  intros Hb Hn Hk. unfold signal_set. rewrite Hn.
  destruct n as [? ? ? ? k]. simpl in Hk. subst k. simpl. by rewrite Hb.
Qed.

(** X7.  In batch mode a write only stores the value and records the signal
    in the batch queue (no node is marked, queued or run); two writes to the
    same signal leave the state of the last write alone. *)
Theorem X7_batch_write_coalesces (autoRun' : state -> outcome unit)
  (s : state) (this : node_id) (n : node) (v0 w v : Z)
  (Hb : batchMode s = true) (Hn : heap s !! this = Some n)
  (Hk : kind n = KSignal v0) :
  signal_set autoRun' this v s
  = Normal (set_batchQueue (put_key this (batchQueue s))
              (upd this (set_value v) s)) tt
  /\ (do (s1, _) <- signal_set autoRun' this w s; signal_set autoRun' this v s1)
     = signal_set autoRun' this v s.
Proof.
  split; [by eapply signal_set_buffered |].
  rewrite (signal_set_buffered autoRun' s this n v0 w Hb Hn Hk). simpl.
  set (s1 := set_batchQueue _ (upd this (set_value w) s)).
  assert (Hn1 : heap s1 !! this = Some (set_value w n)).
  { unfold s1. simpl. by rewrite list_lookup_alter_eq, Hn. }
  assert (Hk1 : kind (set_value w n) = KSignal w).
  { unfold set_value. by rewrite Hk. }
  rewrite (signal_set_buffered autoRun' s1 this _ w v Hb Hn1 Hk1).
  rewrite (signal_set_buffered autoRun' s this n v0 v Hb Hn Hk).
  unfold s1, set_batchQueue, upd, set_heap. simpl.
  rewrite put_key_idem, list_alter_alter_eq.
  do 2 f_equal. apply list_alter_ext; [| done].
  intros x _. apply set_value_twice.
Qed.

Definition demo_batching : state := set_batchMode true demo_state.

Lemma X7_batch_write_coalesces_witness :
  batchMode demo_batching = true
  /\ signal_set (autoRun 5) 0 9 demo_batching
     = Normal (set_batchQueue [0%nat] (upd 0 (set_value 9) demo_batching)) tt.
Proof.
  split; [reflexivity |].
  exact (proj1 (X7_batch_write_coalesces (autoRun 5) demo_batching 0%nat
                  (mkNode 1 false [] [3; 2]%nat (KSignal 1)) 1 4 9
                  eq_refl eq_refl eq_refl)).
Defined.

(** ** Ties in the scheduler *)

(** The node [autoRun] takes, read off the queue without sorting: going from
    the end of the queue, a node replaces the candidate only when it is
    strictly lighter. *)
Definition lightest (h : list node) (l : list node_id) : option node_id :=
  fold_right
    (fun x acc =>
       match acc with
       | None => Some x
       | Some m => if prio h x <? prio h m then Some x else Some m
       end)
    None l.

Lemma last_insert_sorted (h : list node) (x : node_id) (l : list node_id) :
  desc h l ->
  last (insert_sorted h x l)
  = match last l with
    | None => Some x
    | Some m => if prio h x <? prio h m then Some x else Some m
    end.
Proof.
  unfold desc. induction l as [|y l IH]; intros Hl; [done |].
  apply StronglySorted_inv in Hl as [Hl Hy]. simpl insert_sorted.
  assert (Hmin : forall m, last (y :: l) = Some m -> prio h m <= prio h y).
  { intros m Hm. apply last_elem_of, elem_of_cons in Hm as [->|Hm]; [lia |].
    rewrite Forall_forall in Hy. by apply Hy. }
  destruct (cmp h x y <=? 0) eqn:E.
  - apply Z.leb_le in E. unfold cmp in E.
    change (last (x :: y :: l)) with (last (y :: l)).
    destruct (last (y :: l)) as [m|] eqn:Em; [| by apply last_None in Em].
    specialize (Hmin m eq_refl).
    destruct (prio h x <? prio h m) eqn:E2; [apply Z.ltb_lt in E2; lia | done].
  - apply Z.leb_gt in E. unfold cmp in E.
    destruct l as [|z l].
    + simpl. assert (E2 : (prio h x <? prio h y) = true) by (apply Z.ltb_lt; lia).
      by rewrite E2.
    + change (last (y :: z :: l)) with (last (z :: l)). rewrite <- (IH Hl).
      destruct (insert_sorted h x (z :: l)) eqn:Ei; [| done].
      apply (f_equal length) in Ei.
      pose proof (Permutation_length (insert_sorted_perm h x (z :: l))) as Hp.
      rewrite Ei in Hp. simpl in Hp. lia.
Qed.

Lemma last_sort_lightest (h : list node) (l : list node_id) :
  last (sort h l) = lightest h l.
Proof.
  induction l as [|x l IH]; [done |]. simpl.
  rewrite last_insert_sorted by apply sort_desc. by rewrite IH.
Qed.

Lemma lightest_None (h : list node) (l : list node_id) :
  lightest h l = None -> l = [].
Proof.
  destruct l as [|z l]; [done |]. unfold lightest. simpl.
  destruct (fold_right _ None l) as [m|]; [by destruct (_ <? _) | done].
Qed.

Lemma lightest_min (h : list node) (l : list node_id) (n : node_id) :
  lightest h l = Some n ->
  n ∈ l /\ forall x, x ∈ l -> prio h n <= prio h x.
Proof.
  revert n. induction l as [|y l IH]; intros n; simpl; [done |].
  destruct (lightest h l) as [m|] eqn:Em.
  - destruct (IH m eq_refl) as [Hin Hmin].
    destruct (prio h y <? prio h m) eqn:E; intros [= <-].
    + apply Z.ltb_lt in E. split; [by left |].
      intros x [->|Hx]%elem_of_cons; [lia |]. specialize (Hmin x Hx). lia.
    + apply Z.ltb_ge in E. split; [by right |].
      intros x [->|Hx]%elem_of_cons; [lia | by apply Hmin].
  - intros [= <-]. apply lightest_None in Em. subst l.
    split; [by left |]. intros x ->%list_elem_of_singleton. lia.
Qed.

Lemma lightest_last (h : list node) (l1 l2 : list node_id) (n : node_id) :
  lightest h (l1 ++ n :: l2) = Some n -> n ∉ l2 ->
  forall x, x ∈ l2 -> prio h n < prio h x.
Proof.
  induction l1 as [|y l1 IH]; simpl; intros Hl Hn x Hx.
  - destruct (lightest h l2) as [m|] eqn:Em.
    + destruct (lightest_min h l2 m Em) as [Hin Hmin].
      destruct (prio h n <? prio h m) eqn:E.
      * apply Z.ltb_lt in E. specialize (Hmin x Hx). lia.
      * injection Hl as ->. done.
    + apply lightest_None in Em. subst l2. inversion Hx.
  - destruct (lightest h (l1 ++ n :: l2)) as [m|] eqn:Em.
    + destruct (prio h y <? prio h m) eqn:E.
      * injection Hl as ->. apply Z.ltb_lt in E.
        destruct (lightest_min h _ m Em) as [_ Hmin].
        assert (Hin : n ∈ l1 ++ n :: l2).
        { rewrite elem_of_app, elem_of_cons. tauto. }
        specialize (Hmin n Hin). lia.
      * injection Hl as ->. by apply IH.
    + apply lightest_None in Em. by destruct l1.
Qed.

(** X8.  Among the pending nodes of least priority [autoRun] takes the one
    that is last in the queue: every node queued after the one it takes is
    strictly heavier.  The nodes left are the others, in descending order of
    priority. *)
Theorem X8_drain_tie_break (s s' : state) (n : node_id)
  (l1 l2 : list node_id)
  (Hd : dequeue s = Some (n, s'))
  (Hsplit : queue s = l1 ++ n :: l2) (Hn : n ∉ l2) :
  (forall x, x ∈ l2 -> prio (heap s) n < prio (heap s) x)
  /\ (forall x, x ∈ l1 -> prio (heap s) n <= prio (heap s) x)
  /\ desc (heap s) (queue s')
  /\ queue s ≡ₚ queue s' ++ [n].
Proof.
  destruct (dequeue_Some _ _ _ Hd) as (Hq & _).
  assert (Hl : lightest (heap s) (queue s) = Some n).
  { rewrite <- last_sort_lightest, Hq. apply last_snoc. }
  split_and!.
  - rewrite Hsplit in Hl. by apply (lightest_last (heap s) l1 l2 n).
  - intros x Hx. apply (lightest_min _ _ _ Hl).
    rewrite Hsplit, elem_of_app. by left.
  - pose proof (sort_desc (heap s) (queue s)) as Hs. rewrite Hq in Hs.
    unfold desc in *. clear -Hs.
    induction (queue s') as [|y l IH]; [constructor |].
    simpl in Hs. apply StronglySorted_inv in Hs as [Hs Hy].
    constructor; [by apply IH |].
    rewrite Forall_app in Hy. tauto.
  - by rewrite <- Hq, sort_perm.
Qed.

Lemma X8_drain_tie_break_witness :
  let s := set_queue [0; 1; 3]%nat (set_queueIndex [0; 1; 3]%nat demo_state) in
  exists s', dequeue s = Some (1%nat, s')
             /\ (1%nat ∉ [3%nat])
             /\ queue s' = [3; 0]%nat
             /\ forall x, x ∈ [3%nat] -> prio (heap s) 1 < prio (heap s) x.
Proof.
  intros s. exists (snd (default (0%nat, s) (dequeue s))).
  assert (Hd : dequeue s = Some (1%nat, snd (default (0%nat, s) (dequeue s))))
    by (vm_compute; reflexivity).
  assert (Hn : 1%nat ∉ [3%nat]).
  { rewrite list_elem_of_singleton. lia. }
  split; [exact Hd |]. split; [exact Hn |]. split; [vm_compute; reflexivity |].
  exact (proj1 (X8_drain_tie_break s _ 1%nat [0%nat] [3%nat] Hd eq_refl Hn)).
Defined.

(** ** What no call does *)

(** X9.  No call deletes an object or changes its class, the closure given
    to its constructor or the [manual] flag: every object of the state before
    is there, with the same class, when the call returns or throws. *)
Theorem X9_objects_persist (fuel : nat) (p : prog) (s s' : state)
  (x : node_id) (nx : node)
  (Hex : (exists r, exec fuel p s = Normal s' r) \/ exec fuel p s = Thrown s')
  (Hx : heap s !! x = Some nx) :
  (exists nx', heap s' !! x = Some nx' /\ same_class (kind nx) (kind nx'))
  /\ (length (heap s) <= length (heap s'))%nat.
Proof.
  pose proof (exec_keeps fuel p s s' Hex) as Hk. split; [by apply Hk |].
  destruct (decide (length (heap s) <= length (heap s'))%nat) as [|Hgt]; [done |].
  assert (Hl : is_Some (heap s !! (length (heap s) - 1)%nat)).
  { apply lookup_lt_is_Some. apply lookup_lt_Some in Hx. lia. }
  destruct Hl as [nl Hl]. destruct (Hk _ _ Hl) as (nl' & Hl' & _).
  apply lookup_lt_Some in Hl'. lia.
Qed.

Lemma X9_objects_persist_witness :
  let s' := state_of (exec 12 (SignalSet 0 5 (Ret 0)) demo_state) in
  exec 12 (SignalSet 0 5 (Ret 0)) demo_state = Normal s' (RNum 0)
  /\ exists nx', heap s' !! 2%nat = Some nx'
                 /\ same_class (KComputed None (SignalGet 0 (fun v => Ret (v + 1))))
                               (kind nx').
Proof.
  intros s'.
  assert (He : exec 12 (SignalSet 0 5 (Ret 0)) demo_state = Normal s' (RNum 0))
    by (vm_compute; reflexivity).
  assert (Hx : heap demo_state !! 2%nat
               = Some (mkNode 1 true [0%nat] [3%nat]
                         (KComputed (Some 2) (SignalGet 0 (fun v => Ret (v + 1))))))
    by (vm_compute; reflexivity).
  split; [exact He |].
  exact (proj1 (X9_objects_persist 12 _ demo_state s' 2%nat _
                  (or_introl (ex_intro _ _ He)) Hx)).
Defined.

(** X10.  No call pops what was on the evaluation stack when it began: the
    stack at the return or at the throw extends the stack at the call. *)
Theorem X10_stack_only_grows (fuel : nat) (p : prog) (s s' : state)
  (Hex : (exists r, exec fuel p s = Normal s' r) \/ exec fuel p s = Thrown s') :
  exists above, effectStack s' = effectStack s ++ above.
Proof. by apply (exec_stack_prefix fuel p s s'). Qed.

Lemma X10_stack_only_grows_witness :
  let s' := state_of (exec 3 (ComputedGet 0 (fun _ => Ret 0))
                        (addCurrentEffect 0 (state_of (exec 2 throwing_computed init)))) in
  exists above, effectStack s' = [0%nat] ++ above.
Proof.
  intros s'.
  assert (He : exec 3 (ComputedGet 0 (fun _ => Ret 0))
                 (addCurrentEffect 0 (state_of (exec 2 throwing_computed init)))
               = Thrown s') by (vm_compute; reflexivity).
  exact (X10_stack_only_grows 3 _ _ s' (or_intror He)).
Defined.

(** ** Running an effect, reading a clean Computed *)

(** X11.  When [run()] of an Effect returns, the effect is clean, its stored
    cleanup is the function its body returned (none when the body returned
    no function), and its priority is the sum of the priorities of its
    upstream nodes, 0 when it read nothing (the upstream priorities being
    non-negative with a sum within the exact range of JS numbers). *)
Theorem X11_effect_run_post (fuel : nat) (s s' : state) (this : node_id)
  (n : node) (fn : prog) (d : option prog) (r m : bool) (u : unit)
  (Hn : heap s !! this = Some n) (Hk : kind n = KEffect fn d r m)
  (Hrun : effect_run (exec fuel) this s = Normal s' u) :
  exists n' d' r',
    heap s' !! this = Some n'
    /\ kind n' = KEffect fn d' r' m
    /\ dirty n' = false
    /\ (this ∉ prev n' ->
        (forall y, y ∈ prev n' -> 0 <= prio (heap s') y) ->
        fold_left Z.add (map (prio (heap s')) (prev n')) 0 <= max_safe_integer ->
        priority n' = fold_left Z.add (map (prio (heap s')) (prev n')) 0)
    /\ exists s3 res,
         exec fuel fn
           (log (EvEffect this)
              (release this
                 (addCurrentEffect this (upd this (set_running true) s))))
         = Normal s3 res
         /\ d' = match res with RFun c => Some c | RNum _ => None end.
Proof.
  unfold effect_run in Hrun. rewrite Hn in Hrun.
  destruct n as [? ? ? ? k]. simpl in Hk. subst k.
  set (s2 := log (EvEffect this)
               (release this
                  (addCurrentEffect this (upd this (set_running true) s)))) in *.
  destruct (exec fuel fn s2) as [s3 res|?| |] eqn:He; simpl in Hrun; try done.
  injection Hrun as <- _.
  assert (H2 : keeps s s2).
  { eapply keeps_trans; [apply (keeps_upd this (set_running true)),
                          set_running_class |].
    eapply keeps_trans; [| apply (keeps_heap_eq _ s2); reflexivity].
    eapply keeps_trans; [| apply keeps_release]. by apply keeps_heap_eq. }
  destruct (H2 _ _ Hn) as (n2 & Hn2 & Hc2).
  apply (same_class_effect fn d r m) in Hc2 as (d2 & r2 & Hk2).
  destruct (exec_keeps fuel fn s2 s3 (or_introl (ex_intro _ res He)) _ _ Hn2)
    as (n3 & Hn3 & Hc3).
  rewrite Hk2 in Hc3. apply same_class_effect in Hc3 as (d3 & r3 & Hk3).
  set (d' := match res with RFun c => Some c | RNum _ => None end).
  set (s5 := popCurrentEffect this (upd this (set_destroy d') s3)).
  assert (H5 : heap s5 !! this = Some (set_destroy d' n3)).
  { unfold s5. rewrite heap_popCurrentEffect, lookup_upd, decide_True by done.
    by rewrite Hn3. }
  set (P := fold_left Z.add (map (prio (heap s5)) (prev (set_destroy d' n3))) 0).
  assert (H' : heap (base_run this (updatePriority this s5)) !! this
               = Some (set_dirty false (set_priority P (set_destroy d' n3)))).
  { unfold base_run, updatePriority. rewrite H5.
    by rewrite !lookup_upd, !decide_True, H5. }
  assert (Hoth : forall y, y <> this ->
                   heap (base_run this (updatePriority this s5)) !! y
                   = heap s5 !! y).
  { intros y Hne. unfold base_run, updatePriority. rewrite H5.
    by rewrite !lookup_upd, !decide_False. }
  eexists _, d', r3. split; [exact H' |]. split_and!.
  - unfold set_destroy. by rewrite Hk3.
  - done.
  - change (prev (set_dirty false (set_priority P (set_destroy d' n3))))
      with (prev (set_destroy d' n3)).
    change (priority (set_dirty false (set_priority P (set_destroy d' n3))))
      with P.
    intros Hself _ _. unfold P. f_equal. apply map_ext_in.
    intros y Hy%list_elem_of_In.
    assert (Hne : y <> this) by (intros ->; done).
    unfold prio. by rewrite Hoth.
  - by exists s3, res.
Qed.

Lemma X11_effect_run_post_witness :
  let s' := state_of (effect_run (exec 6) 3 demo_state) in
  effect_run (exec 6) 3 demo_state = Normal s' tt
  /\ heap s' !! 3%nat
     = Some (mkNode 2 false [0; 2]%nat []
               (KEffect (demo_effect 0 2) None true false))
  /\ fold_left Z.add (map (prio (heap s')) [0; 2]%nat) 0 = 2.
Proof.
  intros s'.
  assert (Hr : effect_run (exec 6) 3 demo_state = Normal s' tt)
    by (vm_compute; reflexivity).
  assert (Hn : heap demo_state !! 3%nat
               = Some (mkNode 2 false [0; 2]%nat []
                         (KEffect (demo_effect 0 2) None true false)))
    by (vm_compute; reflexivity).
  assert (Hl : heap s' !! 3%nat
               = Some (mkNode 2 false [0; 2]%nat []
                         (KEffect (demo_effect 0 2) None true false)))
    by (vm_compute; reflexivity).
  assert (H0 : prio (heap s') 0 = 1) by (vm_compute; reflexivity).
  assert (H2 : prio (heap s') 2 = 1) by (vm_compute; reflexivity).
  split; [exact Hr |]. split; [exact Hl |].
  destruct (X11_effect_run_post 6 demo_state s' 3%nat _ _ _ _ _ tt Hn eq_refl Hr)
    as (n' & d' & r' & H1 & _ & _ & H4 & _).
  rewrite Hl in H1. injection H1 as <-. cbn [prev priority] in H4.
  symmetry. apply H4.
  - intros H. apply elem_of_cons in H as [H|H]; [lia |].
    apply elem_of_cons in H as [H|H]; [lia | inversion H].
  - intros y Hy. apply elem_of_cons in Hy as [->|Hy]; [rewrite H0; lia |].
    apply elem_of_cons in Hy as [->|Hy]; [rewrite H2; lia | inversion Hy].
  - change (fold_left Z.add (map (prio (heap s')) [0; 2]%nat) 0)
      with (0 + prio (heap s') 0 + prio (heap s') 2).
    rewrite H0, H2. by vm_compute.
Defined.

(** X12.  Reading a Computed that is clean and has a cached value returns the
    cache and invokes no closure; the only change is the dependency edge the
    read registers. *)
Theorem X12_clean_read_is_cached (exec' : prog -> state -> outcome retval)
  (s : state) (this : node_id) (n : node) (v : Z) (fn : prog)
  (Hn : heap s !! this = Some n) (Hk : kind n = KComputed (Some v) fn)
  (Hd : dirty n = false) :
  computed_get exec' this s = Normal (collect this s) v.
Proof.
  destruct (same_flags_collect this s _ _ Hn) as (n' & Hn' & Hk' & Hd').
  unfold computed_get, ensureComputed. rewrite Hn'.
  destruct n' as [? dt ? ? k]. simpl in Hk', Hd'.
  rewrite Hk in Hk'. rewrite Hd in Hd'. subst k dt. simpl. by rewrite Hn'.
Qed.

(** The Computed of the running example after the scheduler has run it. *)
Definition demo_settled : state :=
  state_of (exec 12 (SignalSet 0 5 (Ret 0)) demo_state).

Lemma X12_clean_read_is_cached_witness :
  heap demo_settled !! 2%nat
  = Some (mkNode 1 false [0%nat] [3%nat]
            (KComputed (Some 6) (SignalGet 0 (fun v => Ret (v + 1)))))
  /\ computed_get (exec 0) 2 demo_settled = Normal (collect 2 demo_settled) 6.
Proof.
  assert (Hn : heap demo_settled !! 2%nat
               = Some (mkNode 1 false [0%nat] [3%nat]
                         (KComputed (Some 6) (SignalGet 0 (fun v => Ret (v + 1))))))
    by (vm_compute; reflexivity).
  split; [exact Hn |].
  exact (X12_clean_read_is_cached (exec 0) demo_settled 2%nat _ 6 _
           Hn eq_refl eq_refl).
Defined.

(** ** Writes and batches drain the queue *)

(** X13.  A write outside batch mode, or a batch, that returns has drained
    the scheduler: nothing is pending when it returns. *)
Theorem X13_returns_drained (fuel : nat) (s s' : state) (u : unit)
  (H : (exists this v, batchMode s = false
                       /\ signal_set (autoRun fuel) this v s = Normal s' u)
       \/ (exists p, batch (exec fuel) (autoRun fuel) p s = Normal s' u)) :
  queue s' = [].
Proof.
  destruct H as [(this & v & Hb & Hw)|(p & Hp)].
  - unfold signal_set in Hw.
    destruct (heap s !! this) as [[? ? ? ? [v0|? ?|? ? ? ?]]|]; try done.
    simpl in Hw. rewrite Hb in Hw. by eapply autoRun_returns_empty.
  - unfold batch in Hp.
    destruct (exec fuel p (set_batchMode true s)) as [s2 r|?| |]; try done.
    simpl in Hp. by eapply autoRun_returns_empty.
Qed.

Lemma X13_returns_drained_witness :
  let s' := state_of (signal_set (autoRun 11) 0 5 demo_state) in
  batchMode demo_state = false
  /\ signal_set (autoRun 11) 0 5 demo_state = Normal s' tt
  /\ queue s' = [].
Proof.
  intros s'.
  assert (Hw : signal_set (autoRun 11) 0 5 demo_state = Normal s' tt)
    by (vm_compute; reflexivity).
  split; [reflexivity |]. split; [exact Hw |].
  exact (X13_returns_drained 11 demo_state s' tt
           (or_introl (ex_intro _ 0%nat (ex_intro _ 5 (conj eq_refl Hw))))).
Defined.

(** X14.  A batch that makes a single write, entered with batch mode off and
    an empty batch queue, does what the plain write does, except that the
    signal stays recorded in the batch queue. *)
Theorem X14_batch_of_one_write (f g : nat) (s : state) (this : node_id)
  (n : node) (v0 v : Z)
  (Hb : batchMode s = false) (Hq : batchQueue s = [])
  (Hn : heap s !! this = Some n) (Hk : kind n = KSignal v0) :
  batch (exec (S (S f))) (autoRun g) (SignalSet this v (Ret 0)) s
  = signal_set (autoRun g) this v (set_batchQueue [this] s).
Proof.
  unfold batch.
  change (exec (S (S f)) (SignalSet this v (Ret 0)) (set_batchMode true s))
    with (do (s1, _) <- signal_set (autoRun (S f)) this v (set_batchMode true s);
          exec (S f) (Ret 0) s1).
  rewrite (signal_set_buffered _ (set_batchMode true s) this n v0 v eq_refl Hn Hk).
  change (batchQueue (set_batchMode true s)) with (batchQueue s). rewrite Hq.
  change (put_key this []) with [this].
  unfold signal_set.
  change (heap (set_batchQueue [this] s)) with (heap s). rewrite Hn.
  destruct n as [? ? ? ? k]. simpl in Hk. subst k.
  change (batchMode (upd this (set_value v) (set_batchQueue [this] s)))
    with (batchMode s).
  rewrite Hb. simpl bind.
  assert (Hs : set_batchMode false
                 (set_batchQueue [this]
                    (upd this (set_value v) (set_batchMode true s)))
               = upd this (set_value v) (set_batchQueue [this] s)).
  { destruct s. simpl in *. by subst. }
  cbn [exec exec_body bind]. rewrite Hs. reflexivity.
Qed.

Lemma X14_batch_of_one_write_witness :
  batchMode demo_state = false /\ batchQueue demo_state = []
  /\ batch (exec 2) (autoRun 11) (SignalSet 0 5 (Ret 0)) demo_state
     = signal_set (autoRun 11) 0 5 (set_batchQueue [0%nat] demo_state).
Proof.
  split; [reflexivity |]. split; [reflexivity |].
  exact (X14_batch_of_one_write 0 11 demo_state 0%nat
           (mkNode 1 false [] [3; 2]%nat (KSignal 1)) 1 5
           eq_refl eq_refl eq_refl eq_refl).
Defined.

(** ** Marking the downstream *)

Lemma queue_addEffectTask (n x : node_id) (s : state) :
  x ∈ queue (addEffectTask n s) -> x ∈ queue s \/ x = n.
Proof.
  unfold addEffectTask. destruct (has_key n (queueIndex s)); simpl; [tauto |].
  rewrite elem_of_app, list_elem_of_singleton. tauto.
Qed.

Lemma prefix_addEffectTask (n : node_id) (s : state) :
  queue s `prefix_of` queue (addEffectTask n s).
Proof.
  unfold addEffectTask. destruct (has_key n (queueIndex s)); simpl; [done |].
  by apply prefix_app_r.
Qed.

(** The loop of [dirtyDownstream] touches the nodes of [l] only, and only
    appends to the queue. *)
Lemma dirty_loop_frame (l : list node_id) (s : state) :
  let s' := fold_left (fun st x => addEffectTask x (upd x (set_dirty true) st))
                      l s in
  queue s `prefix_of` queue s'
  /\ (forall x, x ∈ queue s' -> x ∈ queue s \/ x ∈ l)
  /\ (forall x, x ∉ l -> heap s' !! x = heap s !! x).
Proof.
  revert s. induction l as [|p l IH]; intros s; simpl.
  - split_and!; [done | tauto | done].
  - set (s1 := addEffectTask p (upd p (set_dirty true) s)).
    destruct (IH s1) as (Hpre & Hin & Hfr). split_and!.
    + etrans; [| exact Hpre]. apply (prefix_addEffectTask p (upd p (set_dirty true) s)).
    + intros x Hx. rewrite elem_of_cons.
      destruct (Hin x Hx) as [H1|H1]; [| tauto].
      apply queue_addEffectTask in H1. simpl in H1. tauto.
    + intros x Hx. rewrite not_elem_of_cons in Hx. destruct Hx as [Hne Hx].
      rewrite (Hfr x Hx). unfold s1.
      by rewrite heap_addEffectTask, lookup_upd, decide_False.
Qed.

(** X15.  [dirtyDownstream] queues the downstream nodes and nothing else: the
    nodes already pending keep their place, the queue afterwards holds them
    and the downstream nodes, and a node that is not downstream (a stopped
    effect, for one) is left exactly as it was. *)
Theorem X15_marks_only_downstream (this : node_id) (s : state)
  (Hs : sched_ok s) :
  let s' := dirtyDownstream this s in
  queue s `prefix_of` queue s'
  /\ (forall x, x ∈ queue s' <-> x ∈ queue s \/ x ∈ nexts s this)
  /\ (forall x, x ∉ nexts s this -> heap s' !! x = heap s !! x).
Proof.
  intros s'. unfold s', dirtyDownstream, nexts.
  destruct (heap s !! this) as [n|] eqn:Hn.
  - destruct (dirty_loop_frame (next n) s) as (Hpre & Hin & Hfr).
    destruct (dirty_loop (next n) s) as [Hix _].
    assert (Hs' : sched_ok (dirtyDownstream this s))
      by (by apply dirtyDownstream_sched_ok).
    unfold dirtyDownstream in Hs'. rewrite Hn in Hs'.
    split_and!; [done | | done].
    intros x. split; [apply Hin |].
    intros Hx. apply Hs', Hix. destruct Hx as [Hx|Hx]; [| by left].
    right. by apply Hs.
  - split_and!; [done | | done]. intros x. split; [tauto |].
    intros [Hx|Hx]; [done | inversion Hx].
Qed.

Lemma X15_marks_only_downstream_witness :
  sched_ok demo_state
  /\ queue (dirtyDownstream 0 demo_state) = [3; 2]%nat
  /\ heap (dirtyDownstream 0 demo_state) !! 1%nat = heap demo_state !! 1%nat.
Proof.
  assert (Hs : sched_ok demo_state) by exact (reachable_sched_ok _ demo_reachable).
  split; [exact Hs |]. split; [vm_compute; reflexivity |].
  apply (proj2 (proj2 (X15_marks_only_downstream 0%nat demo_state Hs))).
  assert (Hnx : nexts demo_state 0 = [3; 2]%nat) by (vm_compute; reflexivity).
  rewrite Hnx. intros H.
  apply elem_of_cons in H as [H|H]; [lia |].
  apply elem_of_cons in H as [H|H]; [lia | inversion H].
Defined.
